(** * The toast notification store of quick_desk

    A shallow embedding of [src/hooks/use-toast.ts]: the module-level
    variables ([count], [toastTimeouts], [listeners], [memoryState]) and
    the part of the JavaScript host the module talks to (the timer table
    behind [setTimeout], the clock, the calls made to listeners) form one
    record [Store]; every function of the module is a computation in the
    state monad [M] over it. *)

From stdpp Require Import gmap strings list fin_maps pretty.

(** ** Constants *)

Definition TOAST_LIMIT : nat := 1.
Definition TOAST_REMOVE_DELAY : N := 1000000.
Definition MAX_SAFE_INTEGER : N := 9007199254740991.

(** ** Data model *)

(** The values a toast field can hold.  [ToastProps] comes from the UI
    library and is open-ended, so the fields other than [id] are kept as a
    finite map from field name to value.  [VOnOpenChange i] is the closure
    [(open) => { if (!open) dismiss() }] that [toast] builds for id [i];
    [VNode] stands for any value the store only passes along (React nodes,
    action elements, foreign callbacks). *)
Inductive JsValue : Type :=
  | VUndefined
  | VBool (b : bool)
  | VString (s : string)
  | VNode (n : nat)
  | VOnOpenChange (i : string).

(** [Toast = Omit<ToasterToast, "id">] *)
Abbreviation Toast := (gmap string JsValue).

Record ToasterToast : Type := { id : string; props : Toast }.

(** [Partial<ToasterToast>]: the id may be missing. *)
Record PartialToast : Type := { pid : option string; pprops : Toast }.

Inductive Action : Type :=
  | ADD_TOAST (toast : ToasterToast)
  | UPDATE_TOAST (toast : PartialToast)
  | DISMISS_TOAST (toastId : option string)
  | REMOVE_TOAST (toastId : option string).

Record State : Type := { toasts : list ToasterToast }.

(** A timer registered with the host by [setTimeout].  The module has one
    [setTimeout] call site, so the callback is determined by the toast id
    it closes over ([target]); [due] is the registration time plus the
    delay. *)
Record Timer : Type := { handle : nat; due : N; target : string }.

Record Store : Type := {
  count : N;
  toastTimeouts : gmap string nat;
  listeners : list nat;
  memoryState : State;
  (* host *)
  clock : N;
  pending : list Timer;
  nextTimer : nat;
  notified : list (nat * State)
}.

Definition initialStore : Store :=
  {| count := 0; toastTimeouts := ∅; listeners := []; memoryState := {| toasts := [] |};
     clock := 0; pending := []; nextTimer := 0; notified := [] |}.

Definition set_count (c : N) (σ : Store) : Store :=
  {| count := c; toastTimeouts := toastTimeouts σ; listeners := listeners σ;
     memoryState := memoryState σ; clock := clock σ; pending := pending σ;
     nextTimer := nextTimer σ; notified := notified σ |}.

Definition set_toastTimeouts (m : gmap string nat) (σ : Store) : Store :=
  {| count := count σ; toastTimeouts := m; listeners := listeners σ;
     memoryState := memoryState σ; clock := clock σ; pending := pending σ;
     nextTimer := nextTimer σ; notified := notified σ |}.

Definition set_listeners (l : list nat) (σ : Store) : Store :=
  {| count := count σ; toastTimeouts := toastTimeouts σ; listeners := l;
     memoryState := memoryState σ; clock := clock σ; pending := pending σ;
     nextTimer := nextTimer σ; notified := notified σ |}.

Definition set_memoryState (st : State) (σ : Store) : Store :=
  {| count := count σ; toastTimeouts := toastTimeouts σ; listeners := listeners σ;
     memoryState := st; clock := clock σ; pending := pending σ;
     nextTimer := nextTimer σ; notified := notified σ |}.

Definition set_clock (t : N) (σ : Store) : Store :=
  {| count := count σ; toastTimeouts := toastTimeouts σ; listeners := listeners σ;
     memoryState := memoryState σ; clock := t; pending := pending σ;
     nextTimer := nextTimer σ; notified := notified σ |}.

Definition set_pending (ts : list Timer) (σ : Store) : Store :=
  {| count := count σ; toastTimeouts := toastTimeouts σ; listeners := listeners σ;
     memoryState := memoryState σ; clock := clock σ; pending := ts;
     nextTimer := nextTimer σ; notified := notified σ |}.

Definition set_nextTimer (k : nat) (σ : Store) : Store :=
  {| count := count σ; toastTimeouts := toastTimeouts σ; listeners := listeners σ;
     memoryState := memoryState σ; clock := clock σ; pending := pending σ;
     nextTimer := k; notified := notified σ |}.

Definition set_notified (l : list (nat * State)) (σ : Store) : Store :=
  {| count := count σ; toastTimeouts := toastTimeouts σ; listeners := listeners σ;
     memoryState := memoryState σ; clock := clock σ; pending := pending σ;
     nextTimer := nextTimer σ; notified := l |}.

(** ** The state monad of the module *)

Definition M (A : Type) : Type := Store → A * Store.

Global Instance M_ret : MRet M := λ A a σ, (a, σ).
Global Instance M_bind : MBind M := λ A B k m σ, k (m σ).1 (m σ).2.

Definition exec {A} (m : M A) (σ : Store) : Store := (m σ).2.
Definition eval {A} (m : M A) (σ : Store) : A := (m σ).1.

Definition gets {A} (f : Store → A) : M A := λ σ, (f σ, σ).
Definition modify (f : Store → Store) : M unit := λ σ, ((), f σ).

(** [array.forEach(f)] *)
Fixpoint forEach {A} (f : A → M unit) (l : list A) : M unit :=
  match l with
  | [] => mret ()
  | x :: l' => f x ;; forEach f l'
  end.

(** ** The module's functions *)

(** [genId]: bump the counter modulo [Number.MAX_SAFE_INTEGER], return its
    decimal representation.  The counter stays below 2^53 - 1, where the
    arithmetic of JavaScript numbers is exact and [toString] gives plain
    decimal digits. *)
Definition genId : M string :=
  c ← gets count;
  let c' := ((c + 1) mod MAX_SAFE_INTEGER)%N in
  modify (set_count c') ;;
  mret (pretty c').

(** [setTimeout(() => {...toastId...}, TOAST_REMOVE_DELAY)]: the host
    records the timer and hands back a fresh handle. *)
Definition setTimeout (toastId : string) : M nat :=
  k ← gets nextTimer;
  now ← gets clock;
  ts ← gets pending;
  modify (set_pending (ts ++ [{| handle := k; due := (now + TOAST_REMOVE_DELAY)%N;
                                 target := toastId |}])) ;;
  modify (set_nextTimer (S k)) ;;
  mret k.

Definition addToRemoveQueue (toastId : string) : M unit :=
  m ← gets toastTimeouts;
  match m !! toastId with
  | Some _ => mret ()
  | None =>
      timeout ← setTimeout toastId;
      m' ← gets toastTimeouts;
      modify (set_toastTimeouts (<[toastId := timeout]> m'))
  end.

(** JavaScript truthiness of [toastId?: string]: neither [undefined] nor
    the empty string. *)
Definition truthy (toastId : option string) : bool :=
  match toastId with
  | Some (String _ _) => true
  | _ => false
  end.

(** [{ ...t, ...patch }] for [t : ToasterToast], [patch : Partial<ToasterToast>] *)
Definition spread (t : ToasterToast) (patch : PartialToast) : ToasterToast :=
  {| id := default (id t) (pid patch); props := pprops patch ∪ props t |}.

(** [{ ...t, open: false }] *)
Definition close (t : ToasterToast) : ToasterToast :=
  {| id := id t; props := <["open" := VBool false]> (props t) |}.

Definition reducer (state : State) (action : Action) : M State :=
  match action with
  | ADD_TOAST toast =>
      mret {| toasts := take TOAST_LIMIT (toast :: toasts state) |}
  | UPDATE_TOAST toast =>
      mret {| toasts :=
        (λ t, if decide (Some (id t) = pid toast) then spread t toast else t)
          <$> toasts state |}
  | DISMISS_TOAST toastId =>
      (if truthy toastId
       then addToRemoveQueue (default "" toastId)
       else forEach (λ toast, addToRemoveQueue (id toast)) (toasts state)) ;;
      mret {| toasts :=
        (λ t, if decide (Some (id t) = toastId ∨ toastId = None) then close t else t)
          <$> toasts state |}
  | REMOVE_TOAST None =>
      mret {| toasts := [] |}
  | REMOVE_TOAST (Some toastId) =>
      mret {| toasts := filter (λ t, id t ≠ toastId) (toasts state) |}
  end.

(** [listener(memoryState)]: the call is recorded in the host trace. *)
Definition callListener (listener : nat) : M unit :=
  st ← gets memoryState;
  calls ← gets notified;
  modify (set_notified (calls ++ [(listener, st)])).

Definition dispatch (action : Action) : M unit :=
  st ← gets memoryState;
  st' ← reducer st action;
  modify (set_memoryState st') ;;
  ls ← gets listeners;
  forEach callListener ls.

(** The toast entered by [toast(props)] under id [i]:
    [{ ...props, id, open: true, onOpenChange }]. *)
Definition newToast (i : string) (props0 : Toast) : ToasterToast :=
  {| id := i;
     props := <["onOpenChange" := VOnOpenChange i]> (<["open" := VBool true]> props0) |}.

(** The handle's [update]: [dispatch({type: "UPDATE_TOAST", toast: {...props, id}})] *)
Definition handle_update (i : string) (t : ToasterToast) : M unit :=
  dispatch (UPDATE_TOAST {| pid := Some i; pprops := props t |}).

(** The handle's [dismiss]. *)
Definition handle_dismiss (i : string) : M unit :=
  dispatch (DISMISS_TOAST (Some i)).

(** The [onOpenChange] closure of the toast with id [i]. *)
Definition onOpenChange (i : string) (open : bool) : M unit :=
  if open then mret () else handle_dismiss i.

(** [toast(props)]; the returned handle is represented by its id. *)
Definition toast (props0 : Toast) : M string :=
  i ← genId;
  dispatch (ADD_TOAST (newToast i props0)) ;;
  mret i.

(** [useToast().dismiss] *)
Definition dismiss (toastId : option string) : M unit :=
  dispatch (DISMISS_TOAST toastId).

(** The effect of [useToast]: [listeners.push(setState)] and its cleanup,
    [indexOf] followed by [splice(index, 1)]. *)
Definition subscribe (listener : nat) : M unit :=
  ls ← gets listeners;
  modify (set_listeners (ls ++ [listener])).

Fixpoint remove_first (x : nat) (l : list nat) : list nat :=
  match l with
  | [] => []
  | y :: l' => if decide (y = x) then l' else y :: remove_first x l'
  end.

Definition unsubscribe (listener : nat) : M unit :=
  ls ← gets listeners;
  modify (set_listeners (remove_first listener ls)).

(** ** The host: time passing and timers firing *)

(** The body of the timeout callback armed by [addToRemoveQueue]. *)
Definition timeoutCallback (toastId : string) : M unit :=
  m ← gets toastTimeouts;
  modify (set_toastTimeouts (delete toastId m)) ;;
  dispatch (REMOVE_TOAST (Some toastId)).

Fixpoint take_timer (k : nat) (ts : list Timer) : option (Timer * list Timer) :=
  match ts with
  | [] => None
  | t :: ts' =>
      if decide (handle t = k) then Some (t, ts')
      else match take_timer k ts' with
           | Some (t', rest) => Some (t', t :: rest)
           | None => None
           end
  end.

(** The host runs the callback of timer [k], if that timer is pending and
    due; the timer leaves the table before its callback runs. *)
Definition fire (k : nat) (σ : Store) : option Store :=
  match take_timer k (pending σ) with
  | Some (t, rest) =>
      if decide (due t ≤ clock σ)%N
      then Some (exec (timeoutCallback (target t)) (set_pending rest σ))
      else None
  | None => None
  end.

Definition advance (dt : N) (σ : Store) : Store := set_clock (clock σ + dt)%N σ.

(** One turn of the host's timer phase: the timers in the table are visited
    in registration order (all have the same delay, so this is also the
    order in which they fall due) and each one that is due is fired.  The
    callbacks register no timers, so one pass is enough. *)
Definition run_due (σ : Store) : Store :=
  foldl (λ s t, default s (fire (handle t) s)) σ (pending σ).

(** ** Notions used in the statements *)

(** The ids of the tracked toasts, in list order. *)
Definition ids (σ : Store) : list string := id <$> toasts (memoryState σ).

(** The ids for which [DISMISS_TOAST] calls [addToRemoveQueue]. *)
Definition dismiss_targets (toastId : option string) (st : State) : list string :=
  if truthy toastId then [default "" toastId] else id <$> toasts st.

(** Only the timer map, the host's timer table and its handle counter are
    written by [addToRemoveQueue]. *)
Definition same_module_state (σ σ' : Store) : Prop :=
  count σ' = count σ ∧ listeners σ' = listeners σ ∧
  memoryState σ' = memoryState σ ∧ clock σ' = clock σ ∧ notified σ' = notified σ.

(** [show] as the reducer sees it: one [ADD_TOAST] per toast, in call order. *)
Definition showAll (ts : list ToasterToast) : M unit :=
  forEach (λ t, dispatch (ADD_TOAST t)) ts.

(** The toasts that successive [toast(p)] calls create when the counter
    stands at [c]. *)
Fixpoint created (c : N) (ps : list Toast) : list ToasterToast :=
  match ps with
  | [] => []
  | p :: ps' =>
      let c' := ((c + 1) mod MAX_SAFE_INTEGER)%N in
      newToast (pretty c') p :: created c' ps'
  end.

(** [toast(p)] for each payload, in order; the handles are dropped. *)
Definition toastAll (ps : list Toast) : M unit :=
  forEach (λ p, toast p ;; mret ()) ps.

(** *** Invariants and reachable states *)

(** The map [toastTimeouts] and the host's timer table describe each
    other: an entry [i ↦ k] stands for a pending timer with handle [k]
    that targets [i], and every pending timer has its entry; handles are
    pairwise distinct and below the host's counter; no timer is due later
    than one delay from now. *)
Record timers_ok (σ : Store) : Prop := {
  ok_entry : ∀ i k, toastTimeouts σ !! i = Some k →
             ∃ d, {| handle := k; due := d; target := i |} ∈ pending σ;
  ok_timer : ∀ t, t ∈ pending σ → toastTimeouts σ !! target t = Some (handle t);
  ok_due : ∀ t, t ∈ pending σ → (due t ≤ clock σ + TOAST_REMOVE_DELAY)%N;
  ok_fresh : ∀ t, t ∈ pending σ → handle t < nextTimer σ;
  ok_handles : NoDup (handle <$> pending σ)
}.

(** One step of the store: a call to one of the functions a client can
    reach ([toast], a handle's [update] and [dismiss], a toast's
    [onOpenChange], [useToast]'s [dismiss] and subscription, the exported
    [reducer]), time passing, or the host firing a due timer.  Handles and
    callbacks are taken for any id, which covers the ones really handed
    out. *)
Inductive step : Store → Store → Prop :=
  | step_toast p σ : step σ (exec (toast p) σ)
  | step_update i t σ : step σ (exec (handle_update i t) σ)
  | step_handle_dismiss i σ : step σ (exec (handle_dismiss i) σ)
  | step_onOpenChange i b σ : step σ (exec (onOpenChange i b) σ)
  | step_dismiss o σ : step σ (exec (dismiss o) σ)
  | step_subscribe l σ : step σ (exec (subscribe l) σ)
  | step_unsubscribe l σ : step σ (exec (unsubscribe l) σ)
  | step_reducer st a σ : step σ (exec (reducer st a) σ)
  | step_advance dt σ : step σ (advance dt σ)
  | step_fire k σ σ' : fire k σ = Some σ' → step σ σ'.

Definition reachable (σ : Store) : Prop := rtc step initialStore σ.

(** With a limit of one, the list holds at most the toast shown last, and
    that toast carries the current value of the counter. *)
Definition tracks_last_shown (σ : Store) : Prop :=
  length (ids σ) ≤ TOAST_LIMIT ∧ ∀ i, i ∈ ids σ → i = pretty (count σ).

(** *** Sample stores *)

(** A store with one listener and one toast shown, and the same store
    after that toast is dismissed. *)
Definition shown_once : Store :=
  exec (subscribe 7 ;; toast {["title" := VString "X"]}) initialStore.

Definition dismissed_once : Store := exec (dismiss (Some "1")) shown_once.

(** *** Removal and its timer *)


(** *** Properties that turn out not to hold *)

(** The reducer is pure with respect to timers and subscriptions. *)
Definition reducer_leaves_timers (st : State) (a : Action) (σ : Store) : Prop :=
  let σ' := exec (reducer st a) σ in
  toastTimeouts σ' = toastTimeouts σ ∧ pending σ' = pending σ
  ∧ listeners σ' = listeners σ.

(** The round trip of [toast]: listeners are called with the new state,
    whose first toast is open, bears the returned id, and holds every field
    of the payload with the payload's value. *)
Definition toast_carries_payload (σ : Store) (p : Toast) : Prop :=
  let σ' := exec (toast p) σ in
  notified σ' = notified σ ++ ((λ l, (l, memoryState σ')) <$> listeners σ)
  ∧ ∃ t rest, toasts (memoryState σ') = t :: rest
      ∧ id t = eval (toast p) σ
      ∧ props t !! "open" = Some (VBool true)
      ∧ ∀ k v, p !! k = Some v → props t !! k = Some v.

(** [dismiss(i)] for an untracked [i], whatever [i] is, leaves the map with
    an entry for [i]. *)
Definition dismiss_arms_timer (σ : Store) (i : string) : Prop :=
  i ∉ ids σ → is_Some (toastTimeouts (exec (dismiss (Some i)) σ) !! i).

(** *** Repeated calls *)

(** The store after [n] successive calls of [genId]. *)
Definition genIdTimes (n : N) (σ : Store) : Store := N.iter n (exec genId) σ.

(** ** The components around the store *)

(** The dashboards and managers talk to a remote data store and report
    the outcome through [toast].  What the remote store answers is not the
    program's to decide, so each answer is an argument of the function that
    awaits it; the requests sent, the calls of the parent's callback and the
    values passed to [console.error] are recorded. *)

(** *** JavaScript operators on nullable strings *)

(** [a || 'literal'] for a text the program only tests for emptiness and
    passes on. *)
Definition js_or_lit (a : option string) (b : string) : string :=
  if truthy a then default b a else b.

(** Names are looked into with [charAt], which counts in UTF-16 code
    units, so a name is kept as JavaScript has it: the sequence of its code
    units. *)
Abbreviation JsString := (list N).

(** A literal of the source made of ASCII characters only: each character
    is one code unit, its ASCII code. *)
Definition js_lit (s : string) : JsString :=
  Ascii.N_of_ascii <$> String.list_ascii_of_string s.

(** Truthiness of a nullable string: neither [null] nor empty. *)
Definition js_truthy (a : option JsString) : bool :=
  match a with
  | Some (_ :: _) => true
  | _ => false
  end.

(** [a || b], both possibly [null]. *)
Definition js_or (a b : option JsString) : option JsString :=
  if js_truthy a then a else b.

(** [a || 'literal'] *)
Definition js_or_else (a : option JsString) (b : JsString) : JsString :=
  if js_truthy a then default b a else b.

(** [s.charAt(0)]: the string made of the first code unit, or the empty
    string. *)
Definition charAt0 (s : JsString) : JsString := take 1 s.

Module Supabase.

Record PostgrestError : Type := { message : string }.

(** [{ data, error }] as the callers destructure it. *)
Record Response (A : Type) : Type := { data : option A; error : option PostgrestError }.
Arguments data {A} _.
Arguments error {A} _.

(** What a [try] block of the callers can throw: the error of a query, or
    the [TypeError] of reading a property of [null]. *)
Inductive Thrown : Type :=
  | Rejected (e : PostgrestError)
  | TypeError.

(** A component instance together with what it can reach: its own
    state, the toast store, the requests it has sent, how often it has
    called the parent's callback, and what it has logged. *)
Record World (C R : Type) : Type := {
  comp : C;
  store : Store;
  requests : list R;
  parentCalls : nat;
  console : list Thrown
}.
Arguments comp {C R} _.
Arguments store {C R} _.
Arguments requests {C R} _.
Arguments parentCalls {C R} _.
Arguments console {C R} _.

Definition set_comp {C R} (c : C) (w : World C R) : World C R :=
  {| comp := c; store := store w; requests := requests w;
     parentCalls := parentCalls w; console := console w |}.

Definition set_store {C R} (σ : Store) (w : World C R) : World C R :=
  {| comp := comp w; store := σ; requests := requests w;
     parentCalls := parentCalls w; console := console w |}.

Definition send {C R} (r : R) (w : World C R) : World C R :=
  {| comp := comp w; store := store w; requests := requests w ++ [r];
     parentCalls := parentCalls w; console := console w |}.

Definition callParent {C R} (w : World C R) : World C R :=
  {| comp := comp w; store := store w; requests := requests w;
     parentCalls := S (parentCalls w); console := console w |}.

Definition consoleError {C R} (e : Thrown) (w : World C R) : World C R :=
  {| comp := comp w; store := store w; requests := requests w;
     parentCalls := parentCalls w; console := console w ++ [e] |}.

(** [toast(payload)] called from a component; the handle is dropped. *)
Definition showToast {C R} (payload : Toast) (w : World C R) : World C R :=
  set_store (exec (toast payload) (store w)) w.

End Supabase.

(** *** [AdminDashboard] *)

Module AdminDashboard.
Import Supabase.

Record TicketRow : Type := { status : string }.
Record IdRow : Type := { id : string }.

Record AdminStats : Type := {
  total_tickets : nat;
  open_tickets : nat;
  in_progress_tickets : nat;
  resolved_tickets : nat;
  total_users : nat;
  total_categories : nat
}.

Definition initialStats : AdminStats :=
  {| total_tickets := 0; open_tickets := 0; in_progress_tickets := 0;
     resolved_tickets := 0; total_users := 0; total_categories := 0 |}.

(** The body of the [try] block of [fetchStats]: the three queries are
    awaited in turn, an error of one is thrown before the next is sent, and
    reading [.length] of a [null] result throws as well. *)
Definition fetchStats_try (rt : Response (list TicketRow))
    (ru rc : Response (list IdRow)) : Thrown + AdminStats :=
  match error rt with
  | Some e => inl (Rejected e)
  | None =>
    match error ru with
    | Some e => inl (Rejected e)
    | None =>
      match error rc with
      | Some e => inl (Rejected e)
      | None =>
        match data rt, data ru, data rc with
        | Some tickets, Some users, Some categories =>
            inr {| total_tickets := length tickets;
                   open_tickets := length (filter (λ t, status t = "open") tickets);
                   in_progress_tickets :=
                     length (filter (λ t, status t = "in_progress") tickets);
                   resolved_tickets :=
                     length (filter (λ t, status t = "resolved") tickets);
                   total_users := length users;
                   total_categories := length categories |}
        | _, _, _ => inl TypeError
        end
      end
    end
  end.

(** [fetchStats]: the new value of the [stats] state and what was passed
    to [console.error]. *)
Definition fetchStats (rt : Response (list TicketRow))
    (ru rc : Response (list IdRow)) (stats : AdminStats)
    : AdminStats * option Thrown :=
  match fetchStats_try rt ru rc with
  | inr stats' => (stats', None)
  | inl e => (stats, Some e)
  end.

End AdminDashboard.

(** *** [AgentDashboard] *)

Module AgentDashboard.
Import Supabase.

Record User : Type := { id : string }.
Record TicketRow : Type := { status : string; assigned_to : option string }.
Record AgentStats : Type := {
  total : nat;
  open : nat;
  in_progress : nat;
  resolved : nat;
  assigned_to_me : nat
}.

(** The body of the [try] block of [fetchStats].  Of the rows assigned to
    the agent only the number is read, so their type is left open. *)
Definition fetchStats_try {Row : Type} (rAll : Response (list TicketRow))
    (rMy : Response (list Row)) : Thrown + AgentStats :=
  match error rAll with
  | Some e => inl (Rejected e)
  | None =>
    match error rMy with
    | Some e => inl (Rejected e)
    | None =>
      match data rAll, data rMy with
      | Some allTickets, Some myTickets =>
          inr {| total := length allTickets;
                 open := length (filter (λ t, status t = "open") allTickets);
                 in_progress :=
                   length (filter (λ t, status t = "in_progress") allTickets);
                 resolved := length (filter (λ t, status t = "resolved") allTickets);
                 assigned_to_me := length myTickets |}
      | _, _ => inl TypeError
      end
    end
  end.

(** [fetchStats]: nothing happens without a signed-in user. *)
Definition fetchStats {Row : Type} (user : option User)
    (rAll : Response (list TicketRow)) (rMy : Response (list Row))
    (stats : AgentStats) : AgentStats * option Thrown :=
  match user with
  | None => (stats, None)
  | Some _ =>
    match fetchStats_try rAll rMy with
    | inr stats' => (stats', None)
    | inl e => (stats, Some e)
    end
  end.

End AgentDashboard.

(** *** [UserManager] *)

Module UserManager.
Import Supabase.

Inductive Role : Type := user | agent | admin.

(** The string a role is at run time. *)
Definition role_string (r : Role) : string :=
  match r with
  | user => "user"
  | agent => "agent"
  | admin => "admin"
  end.

Record UserProfile : Type := {
  id : string;
  username : option JsString;
  full_name : option JsString;
  email : option string;
  role : Role;
  avatar_url : option string;
  created_at : string
}.

Definition roleColors (r : Role) : string :=
  match r with
  | user => "bg-blue-100 text-blue-800 border-blue-200"
  | agent => "bg-green-100 text-green-800 border-green-200"
  | admin => "bg-purple-100 text-purple-800 border-purple-200"
  end.

Record State : Type := { users : list UserProfile; loading : bool }.

Inductive Request : Type :=
  | SelectProfiles
  | UpdateRole (userId : string) (newRole : Role).

Definition setUsers (us : list UserProfile) (w : World State Request) :=
  set_comp {| users := us; loading := loading (comp w) |} w.

Definition setLoading (b : bool) (w : World State Request) :=
  set_comp {| users := users (comp w); loading := b |} w.

(** [fetchUsers], given the answer to its query. *)
Definition fetchUsers (r : Response (list UserProfile)) (w : World State Request)
    : World State Request :=
  let w1 := send SelectProfiles w in
  let w2 := match error r with
            | Some e => consoleError (Rejected e) w1
            | None => setUsers (default [] (data r)) w1
            end in
  setLoading false w2.

(** [handleRoleChange], given the answer to the update and, for the case
    that the list is fetched again, the answer to that query. *)
Definition handleRoleChange (userId : string) (newRole : Role)
    (updated : option PostgrestError) (r : Response (list UserProfile))
    (w : World State Request) : World State Request :=
  let w1 := send (UpdateRole userId newRole) (setLoading true w) in
  let w2 :=
    match updated with
    | None =>
        let w3 := showToast
          (<["title" := VString "Role Updated"]>
             (<["description" :=
                  VString ("User role has been changed to " +:+ role_string newRole +:+ ".")]>
                ∅)) w1 in
        callParent (fetchUsers r w3)
    | Some e =>
        showToast
          (<["title" := VString "Error"]>
             (<["description" :=
                  VString (js_or_lit (Some (message e)) "Failed to update user role")]>
                (<["variant" := VString "destructive"]> ∅))) w1
    end in
  setLoading false w2.

(** The name shown in a row: [user.full_name || user.username || 'Unnamed User'] *)
Definition displayName (u : UserProfile) : JsString :=
  js_or_else (js_or (full_name u) (username u)) (js_lit "Unnamed User").

(** The avatar's fallback:
    [user.full_name?.charAt(0) || user.username?.charAt(0) || 'U'] *)
Definition avatarFallback (u : UserProfile) : JsString :=
  js_or_else (js_or (charAt0 <$> full_name u) (charAt0 <$> username u)) (js_lit "U").

(** Whether the [@username] line is rendered: [user.username && user.full_name] *)
Definition showsUsernameLine (u : UserProfile) : bool :=
  js_truthy (username u) && js_truthy (full_name u).

End UserManager.

(** *** [Layout] *)

Module Layout.

Record Profile : Type := {
  username : option JsString;
  full_name : option JsString;
  avatar_url : option string
}.

(** [profile?.full_name?.charAt(0) || profile?.username?.charAt(0) || 'U'] *)
Definition avatarFallback (profile : option Profile) : JsString :=
  js_or_else (js_or (charAt0 <$> (profile ≫= full_name))
                    (charAt0 <$> (profile ≫= username))) (js_lit "U").

(** [profile?.full_name || profile?.username] *)
Definition menuName (profile : option Profile) : option JsString :=
  js_or (profile ≫= full_name) (profile ≫= username).

End Layout.

(** *** [CategoryManager] *)

Module CategoryManager.
Import Supabase.

Record Category : Type := {
  id : string;
  name : string;
  description : string;
  color : string;
  created_at : string
}.

Record FormData : Type := {
  form_name : string;
  form_description : string;
  form_color : string
}.

Definition emptyForm : FormData :=
  {| form_name := ""; form_description := ""; form_color := "#3B82F6" |}.

Record State : Type := {
  categories : list Category;
  loading : bool;
  showDialog : bool;
  editingCategory : option Category;
  formData : FormData
}.

Inductive Request : Type :=
  | SelectCategories
  | UpdateCategory (categoryId : string) (values : FormData)
  | InsertCategory (values : FormData)
  | DeleteCategory (categoryId : string).

Definition setCategories (cs : list Category) (w : World State Request) :=
  set_comp {| categories := cs; loading := loading (comp w);
              showDialog := showDialog (comp w);
              editingCategory := editingCategory (comp w);
              formData := formData (comp w) |} w.

Definition setLoading (b : bool) (w : World State Request) :=
  set_comp {| categories := categories (comp w); loading := b;
              showDialog := showDialog (comp w);
              editingCategory := editingCategory (comp w);
              formData := formData (comp w) |} w.

Definition setShowDialog (b : bool) (w : World State Request) :=
  set_comp {| categories := categories (comp w); loading := loading (comp w);
              showDialog := b;
              editingCategory := editingCategory (comp w);
              formData := formData (comp w) |} w.

Definition setEditingCategory (c : option Category) (w : World State Request) :=
  set_comp {| categories := categories (comp w); loading := loading (comp w);
              showDialog := showDialog (comp w);
              editingCategory := c;
              formData := formData (comp w) |} w.

Definition setFormData (f : FormData) (w : World State Request) :=
  set_comp {| categories := categories (comp w); loading := loading (comp w);
              showDialog := showDialog (comp w);
              editingCategory := editingCategory (comp w);
              formData := f |} w.

Definition fetchCategories (r : Response (list Category)) (w : World State Request)
    : World State Request :=
  let w1 := send SelectCategories w in
  let w2 := match error r with
            | Some e => consoleError (Rejected e) w1
            | None => setCategories (default [] (data r)) w1
            end in
  setLoading false w2.

Definition errorToast (e : PostgrestError) (fallback : string) : Toast :=
  <["title" := VString "Error"]>
    (<["description" := VString (js_or_lit (Some (message e)) fallback)]>
       (<["variant" := VString "destructive"]> ∅)).

Definition successToast (title description : string) : Toast :=
  <["title" := VString title]> (<["description" := VString description]> ∅).

(** [handleSubmit], given the answer to the write and to the query that
    follows a successful write. *)
Definition handleSubmit (saved : option PostgrestError) (r : Response (list Category))
    (w : World State Request) : World State Request :=
  let editing := editingCategory (comp w) in
  let values := formData (comp w) in
  let w1 := setLoading true w in
  let w2 := match editing with
            | Some c => send (UpdateCategory (id c) values) w1
            | None => send (InsertCategory values) w1
            end in
  let w3 :=
    match saved with
    | None =>
        let w4 := match editing with
                  | Some _ => showToast (successToast "Category Updated"
                                "The category has been updated successfully.") w2
                  | None => showToast (successToast "Category Created"
                                "The new category has been created successfully.") w2
                  end in
        callParent (fetchCategories r
          (setFormData emptyForm (setEditingCategory None (setShowDialog false w4))))
    | Some e => showToast (errorToast e "Failed to save category") w2
    end in
  setLoading false w3.

Definition handleEdit (category : Category) (w : World State Request) :=
  setShowDialog true
    (setFormData {| form_name := name category;
                    form_description := description category;
                    form_color := color category |}
       (setEditingCategory (Some category) w)).

Definition openCreateDialog (w : World State Request) :=
  setShowDialog true (setFormData emptyForm (setEditingCategory None w)).

(** [handleDelete], given what the user answers to [confirm] and the
    answers of the remote store. *)
Definition handleDelete (categoryId : string) (confirmed : bool)
    (deleted : option PostgrestError) (r : Response (list Category))
    (w : World State Request) : World State Request :=
  if confirmed then
    let w1 := send (DeleteCategory categoryId) (setLoading true w) in
    let w2 :=
      match deleted with
      | None =>
          callParent (fetchCategories r
            (showToast (successToast "Category Deleted"
               "The category has been deleted successfully.") w1))
      | Some e => showToast (errorToast e "Failed to delete category") w1
      end in
    setLoading false w2
  else w.

(** The description cell of a row: [category.description || 'No description'] *)
Definition descriptionCell (c : Category) : string :=
  js_or_lit (Some (description c)) "No description".

End CategoryManager.

(** ** Basic equations *)

Ltac munfold :=
  unfold exec, eval, mbind, M_bind, mret, M_ret, gets, modify in *; cbn [fst snd] in *.

Lemma forEach_map {A B} (g : A → B) (f : B → M unit) (l : list A) σ :
  forEach (λ x, f (g x)) l σ = forEach f (g <$> l) σ.
Proof.
  revert σ; induction l as [|x l IH]; intros σ; [done|].
  cbn [forEach fmap list_fmap]. munfold. apply IH.
Qed.

Lemma forEach_cons {A} (f : A → M unit) x l σ :
  exec (forEach f (x :: l)) σ = exec (forEach f l) (exec (f x) σ).
Proof. done. Qed.

Lemma forEach_app {A} (f : A → M unit) l1 l2 σ :
  exec (forEach f (l1 ++ l2)) σ = exec (forEach f l2) (exec (forEach f l1) σ).
Proof.
  revert σ; induction l1 as [|x l1 IH]; intros σ; [done|].
  rewrite <- app_comm_cons, !forEach_cons. apply IH.
Qed.

Lemma forEach_callListener ls σ :
  exec (forEach callListener ls) σ
  = set_notified (notified σ ++ ((λ l, (l, memoryState σ)) <$> ls)) σ.
Proof.
  revert σ; induction ls as [|l ls IH]; intros σ.
  - destruct σ; unfold exec, set_notified; cbn. by rewrite app_nil_r.
  - rewrite forEach_cons, IH. destruct σ; unfold exec, set_notified; cbn.
    unfold callListener; munfold; cbn. by rewrite <- app_assoc.
Qed.

Lemma arm_has i k σ :
  toastTimeouts σ !! i = Some k → addToRemoveQueue i σ = ((), σ).
Proof. intros H. unfold addToRemoveQueue. munfold. by rewrite H. Qed.

Lemma arm_new i σ :
  toastTimeouts σ !! i = None →
  exec (addToRemoveQueue i) σ
  = {| count := count σ;
       toastTimeouts := <[i := nextTimer σ]> (toastTimeouts σ);
       listeners := listeners σ; memoryState := memoryState σ; clock := clock σ;
       pending := pending σ ++ [{| handle := nextTimer σ;
                                   due := (clock σ + TOAST_REMOVE_DELAY)%N;
                                   target := i |}];
       nextTimer := S (nextTimer σ); notified := notified σ |}.
Proof. intros H. unfold addToRemoveQueue. munfold. by rewrite H. Qed.

Lemma reducer_dismiss_exec st o σ :
  exec (reducer st (DISMISS_TOAST o)) σ
  = exec (forEach addToRemoveQueue (dismiss_targets o st)) σ.
Proof.
  unfold dismiss_targets. cbn [reducer]. destruct (truthy o).
  - done.
  - unfold exec at 1. munfold. by rewrite forEach_map.
Qed.

Lemma reducer_dismiss_eval st o σ :
  eval (reducer st (DISMISS_TOAST o)) σ
  = {| toasts := (λ t, if decide (Some (id t) = o ∨ o = None) then close t else t)
                   <$> toasts st |}.
Proof. done. Qed.

Lemma dispatch_exec a σ :
  exec (dispatch a) σ
  = let σ1 := exec (reducer (memoryState σ) a) σ in
    let st' := eval (reducer (memoryState σ) a) σ in
    set_notified (notified σ1 ++ ((λ l, (l, st')) <$> listeners σ1))
                 (set_memoryState st' σ1).
Proof.
  cbv zeta.
  change (exec (dispatch a) σ)
    with (exec (forEach callListener (listeners (exec (reducer (memoryState σ) a) σ)))
            (set_memoryState (eval (reducer (memoryState σ) a) σ)
               (exec (reducer (memoryState σ) a) σ))).
  by rewrite forEach_callListener.
Qed.

(** ** What [addToRemoveQueue] touches *)

Lemma same_module_state_refl σ : same_module_state σ σ.
Proof. by repeat split. Qed.

Lemma same_module_state_trans σ1 σ2 σ3 :
  same_module_state σ1 σ2 → same_module_state σ2 σ3 → same_module_state σ1 σ3.
Proof. unfold same_module_state. intuition congruence. Qed.

Lemma arm_cases i σ :
  (is_Some (toastTimeouts σ !! i) ∧ exec (addToRemoveQueue i) σ = σ)
  ∨ (toastTimeouts σ !! i = None ∧
     exec (addToRemoveQueue i) σ
     = {| count := count σ;
          toastTimeouts := <[i := nextTimer σ]> (toastTimeouts σ);
          listeners := listeners σ; memoryState := memoryState σ; clock := clock σ;
          pending := pending σ ++ [{| handle := nextTimer σ;
                                      due := (clock σ + TOAST_REMOVE_DELAY)%N;
                                      target := i |}];
          nextTimer := S (nextTimer σ); notified := notified σ |}).
Proof.
  destruct (toastTimeouts σ !! i) as [k|] eqn:E.
  - left. split; [by eexists|]. unfold exec. by rewrite (arm_has i k).
  - right. split; [done|]. by apply arm_new.
Qed.

Lemma arm_frame i σ : same_module_state σ (exec (addToRemoveQueue i) σ).
Proof.
  destruct (arm_cases i σ) as [[_ ->]|[_ ->]]; [apply same_module_state_refl|].
  by repeat split.
Qed.

Lemma armAll_frame l σ : same_module_state σ (exec (forEach addToRemoveQueue l) σ).
Proof.
  revert σ; induction l as [|i l IH]; intros σ; [apply same_module_state_refl|].
  rewrite forEach_cons. eapply same_module_state_trans; [apply arm_frame|apply IH].
Qed.

Lemma arm_armed i σ : is_Some (toastTimeouts (exec (addToRemoveQueue i) σ) !! i).
Proof.
  destruct (arm_cases i σ) as [[H ->]|[_ ->]]; [done|].
  cbn. rewrite lookup_insert_eq. by eexists.
Qed.

Lemma arm_mono i j σ :
  is_Some (toastTimeouts σ !! j) →
  is_Some (toastTimeouts (exec (addToRemoveQueue i) σ) !! j).
Proof.
  intros H. destruct (arm_cases i σ) as [[_ ->]|[E ->]]; [done|].
  cbn. destruct (decide (i = j)) as [->|Hne].
  - rewrite lookup_insert_eq. by eexists.
  - by rewrite lookup_insert_ne.
Qed.

Lemma armAll_mono l j σ :
  is_Some (toastTimeouts σ !! j) →
  is_Some (toastTimeouts (exec (forEach addToRemoveQueue l) σ) !! j).
Proof.
  revert σ; induction l as [|i l IH]; intros σ H; [done|].
  rewrite forEach_cons. by apply IH, arm_mono.
Qed.

Lemma armAll_armed l j σ :
  j ∈ l → is_Some (toastTimeouts (exec (forEach addToRemoveQueue l) σ) !! j).
Proof.
  revert σ; induction l as [|i l IH]; intros σ H.
  - by apply elem_of_nil in H.
  - rewrite forEach_cons. apply elem_of_cons in H as [->|H].
    + apply armAll_mono, arm_armed.
    + by apply IH.
Qed.

(** Where every id already has its timer, nothing happens. *)
Lemma armAll_noop l σ :
  (∀ j, j ∈ l → is_Some (toastTimeouts σ !! j)) →
  exec (forEach addToRemoveQueue l) σ = σ.
Proof.
  induction l as [|i l IH]; intros H; [done|].
  rewrite forEach_cons.
  destruct (arm_cases i σ) as [[_ ->]|[E _]].
  - apply IH. intros j Hj. apply H. by apply elem_of_cons; right.
  - destruct (H i) as [k Hk]; [by apply elem_of_cons; left|]. congruence.
Qed.

Lemma armAll_idem l σ :
  exec (forEach addToRemoveQueue l) (exec (forEach addToRemoveQueue l) σ)
  = exec (forEach addToRemoveQueue l) σ.
Proof. apply armAll_noop. intros j Hj. by apply armAll_armed. Qed.

(** ** The state returned by the reducer, and its effect on the store *)

Lemma reducer_eval_indep st a σ σ' :
  eval (reducer st a) σ = eval (reducer st a) σ'.
Proof. destruct a as [t|p|o|[i|]]; done. Qed.

Lemma reducer_exec_pure st a σ :
  (∀ o, a ≠ DISMISS_TOAST o) → exec (reducer st a) σ = σ.
Proof. intros H. destruct a as [t|p|o|[i|]]; try done. by destruct (H o). Qed.

Lemma reducer_frame st a σ : same_module_state σ (exec (reducer st a) σ).
Proof.
  destruct a as [t|p|o|[i|]]; try apply same_module_state_refl.
  rewrite reducer_dismiss_exec. apply armAll_frame.
Qed.

Lemma dispatch_memoryState a σ :
  memoryState (exec (dispatch a) σ) = eval (reducer (memoryState σ) a) σ.
Proof. by rewrite dispatch_exec. Qed.

Lemma dispatch_timers a σ :
  toastTimeouts (exec (dispatch a) σ) = toastTimeouts (exec (reducer (memoryState σ) a) σ)
  ∧ pending (exec (dispatch a) σ) = pending (exec (reducer (memoryState σ) a) σ)
  ∧ nextTimer (exec (dispatch a) σ) = nextTimer (exec (reducer (memoryState σ) a) σ).
Proof. by rewrite dispatch_exec. Qed.

Lemma dispatch_frame a σ :
  count (exec (dispatch a) σ) = count σ
  ∧ listeners (exec (dispatch a) σ) = listeners σ
  ∧ clock (exec (dispatch a) σ) = clock σ.
Proof.
  rewrite dispatch_exec. cbn.
  destruct (reducer_frame (memoryState σ) a σ) as (?&?&?&?&?). done.
Qed.

Lemma dispatch_notified a σ :
  notified (exec (dispatch a) σ)
  = notified σ ++ ((λ l, (l, memoryState (exec (dispatch a) σ))) <$> listeners σ).
Proof.
  rewrite dispatch_memoryState, dispatch_exec. cbn.
  destruct (reducer_frame (memoryState σ) a σ) as (?&->&?&?&->). done.
Qed.

(** ** Timer bookkeeping invariant *)

Lemma timers_ok_initial : timers_ok initialStore.
Proof.
  split; cbn.
  - intros i k H. by rewrite lookup_empty in H.
  - intros t H. by apply elem_of_nil in H.
  - intros t H. by apply elem_of_nil in H.
  - intros t H. by apply elem_of_nil in H.
  - constructor.
Qed.

(** [timers_ok] only reads the timer fields and the clock. *)
Lemma timers_ok_ext σ σ' :
  toastTimeouts σ' = toastTimeouts σ → pending σ' = pending σ →
  nextTimer σ' = nextTimer σ → clock σ' = clock σ →
  timers_ok σ → timers_ok σ'.
Proof.
  intros E1 E2 E3 E4 [H1 H2 H3 H4 H5].
  split; rewrite ?E1, ?E2, ?E3, ?E4; done.
Qed.

Lemma arm_ok i σ : timers_ok σ → timers_ok (exec (addToRemoveQueue i) σ).
Proof.
  intros [H1 H2 H3 H4 H5].
  destruct (arm_cases i σ) as [[_ ->]|[E ->]]; [done|].
  split; cbn.
  - intros j k Hj. destruct (decide (i = j)) as [->|Hne].
    + rewrite lookup_insert_eq in Hj. injection Hj as <-.
      eexists. apply elem_of_app; right. by apply list_elem_of_singleton.
    + rewrite lookup_insert_ne in Hj by done.
      destruct (H1 _ _ Hj) as [d Hd]. exists d. apply elem_of_app; by left.
  - intros t Ht. apply elem_of_app in Ht as [Ht|Ht].
    + rewrite lookup_insert_ne; [by apply H2|].
      intros ->. apply H2 in Ht. congruence.
    + apply list_elem_of_singleton in Ht as ->. cbn. by rewrite lookup_insert_eq.
  - intros t Ht. apply elem_of_app in Ht as [Ht|Ht]; [by apply H3|].
    apply list_elem_of_singleton in Ht as ->. done.
  - intros t Ht. apply elem_of_app in Ht as [Ht|Ht]; [apply H4 in Ht; lia|].
    apply list_elem_of_singleton in Ht as ->. cbn. lia.
  - rewrite fmap_app. apply NoDup_app. split; [done|]. split.
    + intros k Hk. apply list_elem_of_fmap in Hk as (t & -> & Ht).
      apply H4 in Ht. cbn. intros Hin. apply list_elem_of_singleton in Hin. lia.
    + cbn. apply NoDup_singleton.
Qed.

Lemma armAll_ok l σ : timers_ok σ → timers_ok (exec (forEach addToRemoveQueue l) σ).
Proof.
  revert σ; induction l as [|i l IH]; intros σ H; [done|].
  rewrite forEach_cons. by apply IH, arm_ok.
Qed.

Lemma reducer_ok st a σ : timers_ok σ → timers_ok (exec (reducer st a) σ).
Proof.
  intros H. destruct a as [t|p|o|[i|]]; try done.
  rewrite reducer_dismiss_exec. by apply armAll_ok.
Qed.

Lemma dispatch_ok a σ : timers_ok σ → timers_ok (exec (dispatch a) σ).
Proof.
  intros H. destruct (dispatch_timers a σ) as (E1 & E2 & E3).
  destruct (dispatch_frame a σ) as (_ & _ & E4).
  destruct (reducer_frame (memoryState σ) a σ) as (_ & _ & _ & E5 & _).
  eapply timers_ok_ext; [done|done|done| |by apply (reducer_ok (memoryState σ) a)].
  congruence.
Qed.

Lemma toast_exec p σ :
  exec (toast p) σ
  = exec (dispatch (ADD_TOAST (newToast (eval genId σ) p))) (exec genId σ).
Proof. done. Qed.

Lemma genId_exec σ :
  exec genId σ = set_count ((count σ + 1) mod MAX_SAFE_INTEGER)%N σ.
Proof. done. Qed.

Lemma genId_eval σ :
  eval genId σ = pretty ((count σ + 1) mod MAX_SAFE_INTEGER)%N.
Proof. done. Qed.

Lemma toast_eval p σ : eval (toast p) σ = eval genId σ.
Proof. done. Qed.

Lemma toast_ok p σ : timers_ok σ → timers_ok (exec (toast p) σ).
Proof.
  intros H. rewrite toast_exec. apply dispatch_ok.
  by apply (timers_ok_ext σ).
Qed.

Lemma advance_ok dt σ : timers_ok σ → timers_ok (advance dt σ).
Proof.
  intros [H1 H2 H3 H4 H5]. split; cbn; try done.
  intros t Ht. apply H3 in Ht. lia.
Qed.

(** *** Taking a timer out of the table *)

Lemma take_timer_Some k ts t rest :
  take_timer k ts = Some (t, rest) →
  handle t = k ∧ t ∈ ts ∧ (∀ t', t' ∈ rest → t' ∈ ts) ∧
  (∀ t', t' ∈ ts → t' = t ∨ t' ∈ rest) ∧
  handle <$> ts ≡ₚ handle t :: (handle <$> rest).
Proof.
  revert rest; induction ts as [|u ts IH]; intros rest H; [done|].
  cbn in H. destruct (decide (handle u = k)) as [Hk|Hk].
  - injection H as <- <-. repeat split; try done.
    + by apply elem_of_cons; left.
    + intros t' Ht'. by apply elem_of_cons; right.
    + intros t' Ht'. by apply elem_of_cons in Ht'.
  - destruct (take_timer k ts) as [[t0 rest0]|] eqn:E; [|done].
    injection H as <- <-. destruct (IH _ eq_refl) as (Hh & Hin & Hsub & Hsup & Hperm).
    repeat split; try done.
    + by apply elem_of_cons; right.
    + intros t' Ht'. apply elem_of_cons in Ht' as [->|Ht'];
        apply elem_of_cons; [by left|right; by apply Hsub].
    + intros t' Ht'. apply elem_of_cons in Ht' as [->|Ht'].
      * right. by apply elem_of_cons; left.
      * destruct (Hsup _ Ht') as [->|?]; [by left|]. right. by apply elem_of_cons; right.
    + cbn. rewrite Hperm. apply Permutation_swap.
Qed.

Lemma take_timer_find k ts t :
  t ∈ ts → handle t = k → NoDup (handle <$> ts) →
  ∃ rest, take_timer k ts = Some (t, rest).
Proof.
  induction ts as [|u ts IH]; intros Hin Hk Hnd; [by apply elem_of_nil in Hin|].
  cbn in Hnd. apply NoDup_cons in Hnd as [Hu Hnd].
  cbn. destruct (decide (handle u = k)) as [Hku|Hku].
  - apply elem_of_cons in Hin as [->|Hin]; [by eexists|].
    destruct Hu. apply list_elem_of_fmap. exists t. split; [congruence|done].
  - apply elem_of_cons in Hin as [->|Hin]; [done|].
    destruct (IH Hin Hk Hnd) as [rest ->]. by eexists.
Qed.

(** *** A timer firing *)

Lemma timeoutCallback_exec i σ :
  exec (timeoutCallback i) σ
  = exec (dispatch (REMOVE_TOAST (Some i)))
         (set_toastTimeouts (delete i (toastTimeouts σ)) σ).
Proof. done. Qed.

Lemma fire_Some k σ σ' :
  fire k σ = Some σ' ↔
  ∃ t rest, take_timer k (pending σ) = Some (t, rest) ∧ (due t ≤ clock σ)%N ∧
            σ' = exec (timeoutCallback (target t)) (set_pending rest σ).
Proof.
  unfold fire. split.
  - destruct (take_timer k (pending σ)) as [[t rest]|]; [|done].
    destruct (decide (due t ≤ clock σ)%N); [|done].
    intros [= <-]. by exists t, rest.
  - intros (t & rest & -> & Hd & ->). by rewrite decide_True.
Qed.

Lemma remove_dispatch_timers i σ :
  toastTimeouts (exec (dispatch (REMOVE_TOAST i)) σ) = toastTimeouts σ
  ∧ pending (exec (dispatch (REMOVE_TOAST i)) σ) = pending σ
  ∧ nextTimer (exec (dispatch (REMOVE_TOAST i)) σ) = nextTimer σ.
Proof.
  destruct (dispatch_timers (REMOVE_TOAST i) σ) as (-> & -> & ->).
  by rewrite reducer_exec_pure.
Qed.

Lemma fire_ok k σ σ' : timers_ok σ → fire k σ = Some σ' → timers_ok σ'.
Proof.
  intros [H1 H2 H3 H4 H5] (t & rest & Htake & Hd & ->)%fire_Some.
  rewrite timeoutCallback_exec. apply dispatch_ok.
  destruct (take_timer_Some _ _ _ _ Htake) as (Hk & Hin & Hsub & Hsup & Hperm).
  assert (Hnd : NoDup (handle t :: (handle <$> rest))) by by rewrite <- Hperm.
  apply NoDup_cons in Hnd as [Hnot Hnd].
  split; cbn.
  - intros i k' Hi. apply lookup_delete_Some in Hi as [Hne Hi].
    destruct (H1 _ _ Hi) as [d Hd']. exists d.
    destruct (Hsup _ Hd') as [<-|?]; [done|done].
  - intros t' Ht'. rewrite lookup_delete_ne; [by apply H2, Hsub|].
    intros Heq. destruct Hnot. apply list_elem_of_fmap. exists t'. split; [|done].
    pose proof (H2 _ Hin) as Ea. pose proof (H2 _ (Hsub _ Ht')) as Eb.
    rewrite Heq in Ea. congruence.
  - intros t' Ht'. by apply H3, Hsub.
  - intros t' Ht'. by apply H4, Hsub.
  - done.
Qed.

(** ** The states the store can be in *)

Lemma step_ok σ σ' : step σ σ' → timers_ok σ → timers_ok σ'.
Proof.
  intros Hs H. destruct Hs as [p σ|i t σ|i σ|i [] σ|o σ|l σ|l σ|st a σ|dt σ|k σ σ' Hf].
  - by apply toast_ok.
  - by apply dispatch_ok.
  - by apply dispatch_ok.
  - done.
  - by apply dispatch_ok.
  - by apply dispatch_ok.
  - by apply (timers_ok_ext σ).
  - by apply (timers_ok_ext σ).
  - by apply reducer_ok.
  - by apply advance_ok.
  - by apply (fire_ok k σ).
Qed.

Lemma reachable_invariant (P : Store → Prop) :
  P initialStore →
  (∀ σ σ', reachable σ → step σ σ' → P σ → P σ') →
  ∀ σ, reachable σ → P σ.
Proof.
  intros H0 Hs σ H. revert σ H. apply (rtc_ind_r P initialStore); [done|].
  intros σ σ' Hr Hst HP. by apply (Hs σ).
Qed.

Lemma reachable_ok σ : reachable σ → timers_ok σ.
Proof.
  apply reachable_invariant; [apply timers_ok_initial|].
  intros σ1 σ2 _ Hs H. by apply (step_ok σ1).
Qed.

(** ** The toast list after each action *)

Lemma reducer_add_eval st t σ :
  eval (reducer st (ADD_TOAST t)) σ = {| toasts := take TOAST_LIMIT (t :: toasts st) |}.
Proof. done. Qed.

Lemma reducer_update_eval st p σ :
  eval (reducer st (UPDATE_TOAST p)) σ
  = {| toasts := (λ t, if decide (Some (id t) = pid p) then spread t p else t)
                   <$> toasts st |}.
Proof. done. Qed.

Lemma reducer_remove_eval st i σ :
  eval (reducer st (REMOVE_TOAST (Some i))) σ
  = {| toasts := filter (λ t, id t ≠ i) (toasts st) |}.
Proof. done. Qed.

Lemma reducer_remove_all_eval st σ :
  eval (reducer st (REMOVE_TOAST None)) σ = {| toasts := [] |}.
Proof. done. Qed.

Lemma spread_id t p : Some (id t) = pid p → id (spread t p) = id t.
Proof. unfold spread. by intros <-. Qed.

Lemma update_ids st p σ :
  id <$> toasts (eval (reducer st (UPDATE_TOAST p)) σ) = id <$> toasts st.
Proof.
  rewrite reducer_update_eval. cbn [toasts]. rewrite <- list_fmap_compose.
  apply list_fmap_ext. intros n t _. cbn. case_decide; [by apply spread_id|done].
Qed.

Lemma dismiss_ids st o σ :
  id <$> toasts (eval (reducer st (DISMISS_TOAST o)) σ) = id <$> toasts st.
Proof.
  rewrite reducer_dismiss_eval. cbn [toasts]. rewrite <- list_fmap_compose.
  apply list_fmap_ext. intros n t _. cbn. by case_decide.
Qed.

(** Apart from [ADD_TOAST], no action brings a new id into the list. *)
Lemma reducer_ids_sublist st a σ :
  (∀ t, a ≠ ADD_TOAST t) →
  (id <$> toasts (eval (reducer st a) σ)) `sublist_of` (id <$> toasts st).
Proof.
  intros H. destruct a as [t|p|o|[i|]].
  - by destruct (H t).
  - by rewrite update_ids.
  - by rewrite dismiss_ids.
  - rewrite reducer_remove_eval. cbn [toasts]. apply fmap_sublist, sublist_filter.
  - rewrite reducer_remove_all_eval. apply sublist_nil_l.
Qed.

Lemma dispatch_ids_sublist a σ :
  (∀ t, a ≠ ADD_TOAST t) → ids (exec (dispatch a) σ) `sublist_of` ids σ.
Proof.
  intros H. unfold ids. rewrite dispatch_memoryState. by apply reducer_ids_sublist.
Qed.

Lemma fire_ids_sublist k σ σ' : fire k σ = Some σ' → ids σ' `sublist_of` ids σ.
Proof.
  intros (t & rest & _ & _ & ->)%fire_Some. rewrite timeoutCallback_exec.
  by apply (dispatch_ids_sublist (REMOVE_TOAST (Some (target t)))
              (set_toastTimeouts (delete (target t) (toastTimeouts (set_pending rest σ)))
                 (set_pending rest σ))).
Qed.

Lemma fire_count k σ σ' : fire k σ = Some σ' → count σ' = count σ.
Proof.
  intros (t & rest & _ & _ & ->)%fire_Some. rewrite timeoutCallback_exec.
  by destruct (dispatch_frame (REMOVE_TOAST (Some (target t)))
    (set_toastTimeouts (delete (target t) (toastTimeouts (set_pending rest σ)))
       (set_pending rest σ))) as (-> & _).
Qed.

(** ** Ids of tracked toasts *)

Lemma tracks_last_shown_sublist σ σ' :
  count σ' = count σ → ids σ' `sublist_of` ids σ →
  tracks_last_shown σ → tracks_last_shown σ'.
Proof.
  intros Ec Hsub [Hlen Hid]. split.
  - apply sublist_length in Hsub. lia.
  - intros i Hi. rewrite Ec. apply Hid. by eapply elem_of_sublist.
Qed.

Lemma toast_memoryState p σ :
  memoryState (exec (toast p) σ)
  = {| toasts := take TOAST_LIMIT (newToast (eval genId σ) p :: toasts (memoryState σ)) |}.
Proof. by rewrite toast_exec, dispatch_memoryState. Qed.

Lemma toast_count p σ :
  count (exec (toast p) σ) = ((count σ + 1) mod MAX_SAFE_INTEGER)%N.
Proof.
  rewrite toast_exec.
  by destruct (dispatch_frame (ADD_TOAST (newToast (eval genId σ) p)) (exec genId σ))
    as (-> & _).
Qed.

Lemma dispatch_tracks_last_shown a σ :
  (∀ t, a ≠ ADD_TOAST t) → tracks_last_shown σ → tracks_last_shown (exec (dispatch a) σ).
Proof.
  intros Ha H. apply (tracks_last_shown_sublist σ); [|by apply dispatch_ids_sublist|done].
  by destruct (dispatch_frame a σ) as (-> & _).
Qed.

Lemma step_tracks_last_shown σ σ' :
  step σ σ' → tracks_last_shown σ → tracks_last_shown σ'.
Proof.
  intros Hs H. destruct Hs as [p σ|i t σ|i σ|i [] σ|o σ|l σ|l σ|st a σ|dt σ|k σ σ' Hf];
    try done.
  - unfold tracks_last_shown, ids.
    rewrite toast_memoryState, toast_count, genId_eval. cbn. split; [done|].
    intros i Hi. by apply list_elem_of_singleton in Hi.
  - by apply dispatch_tracks_last_shown.
  - by apply dispatch_tracks_last_shown.
  - by apply dispatch_tracks_last_shown.
  - by apply dispatch_tracks_last_shown.
  - apply (tracks_last_shown_sublist σ); [| |done].
    + by destruct (reducer_frame st a σ) as (-> & _).
    + unfold ids. by destruct (reducer_frame st a σ) as (_ & _ & -> & _).
  - apply (tracks_last_shown_sublist σ); [by eapply fire_count|by eapply fire_ids_sublist|done].
Qed.

Lemma reachable_tracks_last_shown σ : reachable σ → tracks_last_shown σ.
Proof.
  apply reachable_invariant.
  - split; [cbn; unfold TOAST_LIMIT; lia|]. intros i Hi. by apply elem_of_nil in Hi.
  - intros σ1 σ2 _ Hs H. by apply (step_tracks_last_shown σ1).
Qed.

(** The counter never stands still: the next id differs from the last. *)
Lemma genId_changes (c : N) :
  (pretty ((c + 1) mod MAX_SAFE_INTEGER)%N : string) ≠ pretty c.
Proof.
  intros H. apply (inj pretty) in H.
  assert (0 < MAX_SAFE_INTEGER)%N by (unfold MAX_SAFE_INTEGER; lia).
  destruct (decide (c + 1 < MAX_SAFE_INTEGER)%N) as [Hlt|Hge].
  - rewrite N.mod_small in H by done. lia.
  - pose proof (N.mod_upper_bound (c + 1) MAX_SAFE_INTEGER) as Hb.
    assert (c + 1 = MAX_SAFE_INTEGER ∨ MAX_SAFE_INTEGER < c + 1)%N as [E|Hgt] by lia.
    + rewrite E, N.Div0.mod_same in H. unfold MAX_SAFE_INTEGER in *. lia.
    + unfold MAX_SAFE_INTEGER in *. lia.
Qed.

(** ** Showing toasts: the limit *)

Lemma take_app_take {A} n (l k : list A) :
  take n (l ++ take n k) = take n (l ++ k).
Proof. rewrite !take_app, take_take. f_equal. f_equal. lia. Qed.

Lemma dispatch_add_toasts t σ :
  toasts (memoryState (exec (dispatch (ADD_TOAST t)) σ))
  = take TOAST_LIMIT (t :: toasts (memoryState σ)).
Proof. by rewrite dispatch_memoryState. Qed.

Lemma showAll_within_limit ts σ :
  length (toasts (memoryState σ)) ≤ TOAST_LIMIT →
  length (toasts (memoryState (exec (showAll ts) σ))) ≤ TOAST_LIMIT.
Proof.
  revert σ; induction ts as [|t ts IH]; intros σ H; [done|].
  unfold showAll. rewrite forEach_cons. apply IH.
  rewrite dispatch_add_toasts, length_take. lia.
Qed.

Lemma showAll_take ts σ :
  take TOAST_LIMIT (toasts (memoryState (exec (showAll ts) σ)))
  = take TOAST_LIMIT (reverse ts ++ toasts (memoryState σ)).
Proof.
  revert σ; induction ts as [|t ts IH]; intros σ; [done|].
  unfold showAll. rewrite forEach_cons. fold (showAll ts). rewrite IH.
  rewrite dispatch_add_toasts, take_app_take, reverse_cons, <- app_assoc. done.
Qed.

Lemma showAll_memoryState_ext ts σ σ' :
  memoryState σ = memoryState σ' →
  memoryState (exec (showAll ts) σ) = memoryState (exec (showAll ts) σ').
Proof.
  revert σ σ'; induction ts as [|t ts IH]; intros σ σ' E; [done|].
  unfold showAll. rewrite !forEach_cons. apply IH.
  by rewrite !dispatch_memoryState, !reducer_add_eval, E.
Qed.

Lemma toastAll_showAll ps σ :
  memoryState (exec (toastAll ps) σ)
  = memoryState (exec (showAll (created (count σ) ps)) σ).
Proof.
  revert σ; induction ps as [|p ps IH]; intros σ; [done|].
  unfold toastAll. rewrite forEach_cons. fold (toastAll ps).
  change (exec (toast p;; mret ()) σ) with (exec (toast p) σ).
  rewrite IH, toast_count. cbn [created]. unfold showAll at 2.
  rewrite forEach_cons. fold (showAll (created ((count σ + 1) mod MAX_SAFE_INTEGER)%N ps)).
  apply showAll_memoryState_ext.
  by rewrite toast_memoryState, dispatch_memoryState, reducer_add_eval, genId_eval.
Qed.

(** C1: whatever the store holds, after a non-empty run of shows
    ([ADD_TOAST] dispatches, or calls of [toast]) the tracked list is no
    longer than [TOAST_LIMIT] and consists of the [TOAST_LIMIT] toasts shown
    last, newest first; older ones, and whatever was tracked before, are cut
    off by the truncation.  From the initial store this holds for the empty
    run too. *)
Theorem show_keeps_most_recent :
  (∀ σ t ts,
     let σ' := exec (showAll (t :: ts)) σ in
     length (toasts (memoryState σ')) ≤ TOAST_LIMIT
     ∧ toasts (memoryState σ')
       = take TOAST_LIMIT (reverse (t :: ts) ++ toasts (memoryState σ))
     ∧ toasts (memoryState σ') = take TOAST_LIMIT (reverse (t :: ts)))
  ∧ (∀ σ p ps,
     let σ' := exec (toastAll (p :: ps)) σ in
     length (toasts (memoryState σ')) ≤ TOAST_LIMIT
     ∧ toasts (memoryState σ')
       = take TOAST_LIMIT (reverse (created (count σ) (p :: ps))))
  ∧ (∀ ts,
     let σ' := exec (showAll ts) initialStore in
     length (toasts (memoryState σ')) ≤ TOAST_LIMIT
     ∧ toasts (memoryState σ') = take TOAST_LIMIT (reverse ts)).
Proof.
  assert (Hnonempty : ∀ σ t ts,
    length (toasts (memoryState (exec (showAll (t :: ts)) σ))) ≤ TOAST_LIMIT
    ∧ toasts (memoryState (exec (showAll (t :: ts)) σ))
      = take TOAST_LIMIT (reverse (t :: ts) ++ toasts (memoryState σ))
    ∧ toasts (memoryState (exec (showAll (t :: ts)) σ))
      = take TOAST_LIMIT (reverse (t :: ts))).
  { intros σ t ts.
    assert (Hlen : length (toasts (memoryState (exec (showAll (t :: ts)) σ)))
                   ≤ TOAST_LIMIT).
    { unfold showAll. rewrite forEach_cons. apply showAll_within_limit.
      rewrite dispatch_add_toasts, length_take. lia. }
    assert (Heq : toasts (memoryState (exec (showAll (t :: ts)) σ))
                  = take TOAST_LIMIT (reverse (t :: ts) ++ toasts (memoryState σ))).
    { rewrite <- showAll_take. symmetry. by apply take_ge. }
    split; [done|]. split; [done|].
    rewrite Heq. apply take_app_le.
    rewrite length_reverse. cbn. unfold TOAST_LIMIT. lia. }
  split; [exact Hnonempty|]. split.
  - intros σ p ps σ'. subst σ'. rewrite toastAll_showAll.
    cbn [created]. split; apply Hnonempty.
  - intros ts σ'. subst σ'. split.
    + apply showAll_within_limit. cbn. lia.
    + pose proof (showAll_take ts initialStore) as H.
      change (toasts (memoryState initialStore)) with (@nil ToasterToast) in H.
      rewrite app_nil_r in H. rewrite <- H. symmetry. apply take_ge.
      apply showAll_within_limit. cbn. lia.
Qed.

Example show_A_then_B :
  (λ t, (id t, props t !! "title", props t !! "open"))
    <$> toasts (memoryState (exec (toast {["title" := VString "A"]} ;;
                                   toast {["title" := VString "B"]}) initialStore))
  = [("2", Some (VString "B"), Some (VBool true))].
Proof. vm_compute. done. Qed.

(** ** What a firing timer does *)

Lemma filter_id_idem i (l : list ToasterToast) :
  filter (λ t, id t ≠ i) (filter (λ t, id t ≠ i) l) = filter (λ t, id t ≠ i) l.
Proof.
  induction l as [|t l IH]; [done|].
  rewrite filter_cons. destruct (decide (id t ≠ i)) as [H|H]; [|done].
  rewrite filter_cons, decide_True by done. by rewrite IH.
Qed.

Lemma filter_id_absent i (l : list ToasterToast) :
  i ∉ id <$> l → filter (λ t, id t ≠ i) l = l.
Proof.
  induction l as [|t l IH]; intros H; [done|].
  cbn in H. apply not_elem_of_cons in H as [Hne Hl].
  rewrite filter_cons, decide_True by done. by rewrite IH.
Qed.

Lemma filter_id_gone i (l : list ToasterToast) :
  i ∉ id <$> filter (λ t, id t ≠ i) l.
Proof.
  intros (t & -> & Ht)%list_elem_of_fmap.
  apply list_elem_of_filter in Ht as [Hne _]. done.
Qed.

(** A pending timer that is due fires: its map entry goes, [REMOVE_TOAST]
    for its target is dispatched, the listeners are called. *)
Lemma fire_due k σ t :
  timers_ok σ → t ∈ pending σ → handle t = k → (due t ≤ clock σ)%N →
  ∃ σ2, fire k σ = Some σ2
    ∧ σ2 = exec (dispatch (REMOVE_TOAST (Some (target t))))
             (set_toastTimeouts (delete (target t) (toastTimeouts σ))
                (set_pending (pending σ2) σ))
    ∧ toastTimeouts σ2 = delete (target t) (toastTimeouts σ)
    ∧ toasts (memoryState σ2)
      = filter (λ u, id u ≠ target t) (toasts (memoryState σ))
    ∧ listeners σ2 = listeners σ
    ∧ notified σ2 = notified σ ++ ((λ l, (l, memoryState σ2)) <$> listeners σ)
    ∧ (∀ u, u ∈ pending σ2 → u ∈ pending σ ∧ target u ≠ target t).
Proof.
  intros Hok Hin Hk Hd.
  destruct (take_timer_find k (pending σ) t Hin Hk (ok_handles _ Hok)) as [rest Htake].
  set (σ1 := set_toastTimeouts (delete (target t) (toastTimeouts σ)) (set_pending rest σ)).
  exists (exec (dispatch (REMOVE_TOAST (Some (target t)))) σ1).
  assert (Hfire : fire k σ = Some (exec (dispatch (REMOVE_TOAST (Some (target t)))) σ1)).
  { apply fire_Some. exists t, rest. by rewrite timeoutCallback_exec. }
  destruct (remove_dispatch_timers (Some (target t)) σ1) as (Ett & Ep & _).
  split; [done|]. split; [by rewrite Ep|]. split; [by rewrite Ett|].
  split; [by rewrite dispatch_memoryState|].
  split; [by destruct (dispatch_frame (REMOVE_TOAST (Some (target t))) σ1) as (_ & -> & _)|].
  split; [by rewrite dispatch_notified|].
  intros u Hu. rewrite Ep in Hu. cbn in Hu.
  destruct (take_timer_Some _ _ _ _ Htake) as (_ & _ & Hsub & _ & _).
  split; [by apply Hsub|].
  pose proof (fire_ok k σ _ Hok Hfire) as Hok2.
  intros Heq. assert (Hu2 : u ∈ pending (exec (dispatch (REMOVE_TOAST (Some (target t)))) σ1))
    by by rewrite Ep.
  apply (ok_timer _ Hok2) in Hu2. rewrite Ett, Heq in Hu2. cbn in Hu2.
  by rewrite lookup_delete_eq in Hu2.
Qed.

(** The timer recorded for [i] fires once the delay has passed. *)
Lemma fire_after_delay k i σ :
  timers_ok σ → toastTimeouts σ !! i = Some k →
  ∃ σ2, fire k (advance TOAST_REMOVE_DELAY σ) = Some σ2
    ∧ σ2 = exec (dispatch (REMOVE_TOAST (Some i)))
             (set_toastTimeouts (delete i (toastTimeouts σ))
                (set_pending (pending σ2) (advance TOAST_REMOVE_DELAY σ)))
    ∧ toastTimeouts σ2 = delete i (toastTimeouts σ)
    ∧ toasts (memoryState σ2) = filter (λ u, id u ≠ i) (toasts (memoryState σ))
    ∧ listeners σ2 = listeners σ
    ∧ notified σ2 = notified σ ++ ((λ l, (l, memoryState σ2)) <$> listeners σ)
    ∧ (∀ u, u ∈ pending σ2 → u ∈ pending σ ∧ target u ≠ i).
Proof.
  intros Hok Hi. destruct (ok_entry _ Hok _ _ Hi) as [d Hd].
  pose proof (ok_due _ Hok _ Hd) as Hdue. cbn in Hdue.
  apply (fire_due k (advance TOAST_REMOVE_DELAY σ) {| handle := k; due := d; target := i |});
    [by apply advance_ok|done|done|cbn; lia].
Qed.

(** ** The sample stores *)

Lemma shown_once_reachable : reachable shown_once.
Proof.
  unfold shown_once, reachable.
  eapply rtc_l; [apply (step_subscribe 7)|].
  eapply rtc_l; [apply (step_toast {["title" := VString "X"]})|].
  apply rtc_refl.
Qed.

Lemma dismissed_once_reachable : reachable dismissed_once.
Proof.
  eapply rtc_r; [apply shown_once_reachable|apply (step_dismiss (Some "1"))].
Qed.

Lemma dismissed_once_timer : toastTimeouts dismissed_once !! "1" = Some 0.
Proof. vm_compute. done. Qed.

(** ** Removing a toast: the timer's callback *)



(** ** Side effects of the reducer *)

(** C3, counterexample: reducing [DISMISS_TOAST] for id "1" in the initial
    store registers a timer with the host and records it in
    [toastTimeouts]. *)
Lemma reducer_dismiss_arms_timer :
  ¬ reducer_leaves_timers {| toasts := [] |} (DISMISS_TOAST (Some "1")) initialStore
  ∧ toastTimeouts (exec (reducer {| toasts := [] |} (DISMISS_TOAST (Some "1")))
                     initialStore) !! "1" = Some 0
  ∧ pending (exec (reducer {| toasts := [] |} (DISMISS_TOAST (Some "1"))) initialStore)
    = [{| handle := 0; due := TOAST_REMOVE_DELAY; target := "1" |}].
Proof.
  split; [|split; vm_compute; done].
  intros (_ & H & _). vm_compute in H. discriminate.
Qed.

(** C3, as the code has it: the state the reducer returns depends on
    [(state, action)] alone, and the reducer never writes the listener list,
    [memoryState], the counter or the listeners' trace.  [ADD_TOAST],
    [UPDATE_TOAST] and [REMOVE_TOAST] leave the whole store as it is.
    [DISMISS_TOAST] is the exception: it runs [addToRemoveQueue] on the
    dismissed ids, which arms a timer and adds a [toastTimeouts] entry for
    each id that has none. *)
Theorem reducer_effects :
  (∀ st a σ σ', eval (reducer st a) σ = eval (reducer st a) σ')
  ∧ (∀ st a σ, same_module_state σ (exec (reducer st a) σ))
  ∧ (∀ st t σ, exec (reducer st (ADD_TOAST t)) σ = σ)
  ∧ (∀ st p σ, exec (reducer st (UPDATE_TOAST p)) σ = σ)
  ∧ (∀ st o σ, exec (reducer st (REMOVE_TOAST o)) σ = σ)
  ∧ (∀ st o σ, exec (reducer st (DISMISS_TOAST o)) σ
               = exec (forEach addToRemoveQueue (dismiss_targets o st)) σ)
  ∧ (∀ i σ, toastTimeouts σ !! i = None →
       toastTimeouts (exec (addToRemoveQueue i) σ) = <[i := nextTimer σ]> (toastTimeouts σ)
       ∧ pending (exec (addToRemoveQueue i) σ)
         = pending σ ++ [{| handle := nextTimer σ;
                            due := (clock σ + TOAST_REMOVE_DELAY)%N; target := i |}]).
Proof.
  split; [apply reducer_eval_indep|]. split; [apply reducer_frame|].
  split; [done|]. split; [done|].
  split; [intros st o σ; by apply reducer_exec_pure|].
  split; [apply reducer_dismiss_exec|].
  intros i σ H. by rewrite arm_new.
Qed.

Lemma reducer_effects_witness :
  toastTimeouts (exec (addToRemoveQueue "1") initialStore)
  = <["1" := 0]> (toastTimeouts initialStore).
Proof.
  destruct reducer_effects as (_ & _ & _ & _ & _ & _ & H).
  destruct (H "1" initialStore) as [Htt _]; [reflexivity|exact Htt].
Defined.

(** ** Dismissing twice *)

Lemma arm_keeps i j k σ :
  toastTimeouts σ !! i = Some k →
  toastTimeouts (exec (addToRemoveQueue j) σ) !! i = Some k
  ∧ filter (λ t, target t = i) (pending (exec (addToRemoveQueue j) σ))
    = filter (λ t, target t = i) (pending σ).
Proof.
  intros H. destruct (arm_cases j σ) as [[_ ->]|[E ->]]; [done|]. cbn.
  assert (j ≠ i) by congruence. split; [by rewrite lookup_insert_ne|].
  rewrite filter_app, filter_cons, decide_False by done.
  rewrite filter_nil. apply app_nil_r.
Qed.

Lemma armAll_keeps i l k σ :
  toastTimeouts σ !! i = Some k →
  toastTimeouts (exec (forEach addToRemoveQueue l) σ) !! i = Some k
  ∧ filter (λ t, target t = i) (pending (exec (forEach addToRemoveQueue l) σ))
    = filter (λ t, target t = i) (pending σ).
Proof.
  revert σ; induction l as [|j l IH]; intros σ H; [done|].
  rewrite forEach_cons. destruct (arm_keeps i j k σ H) as [H1 H2].
  destruct (IH _ H1) as [H3 H4]. split; [done|]. by rewrite H4.
Qed.

(** In a consistent store an id with a map entry has exactly one pending
    timer. *)
Lemma one_timer_per_id i σ :
  timers_ok σ → is_Some (toastTimeouts σ !! i) →
  length (filter (λ t, target t = i) (pending σ)) = 1.
Proof.
  intros Hok [k Hk]. destruct (ok_entry _ Hok _ _ Hk) as [d Hd].
  assert (Hin : {| handle := k; due := d; target := i |}
                ∈ filter (λ t, target t = i) (pending σ))
    by by apply list_elem_of_filter.
  assert (Hnd : NoDup (handle <$> filter (λ t, target t = i) (pending σ))).
  { eapply sublist_NoDup; [apply (ok_handles _ Hok)|]. apply fmap_sublist, sublist_filter. }
  assert (Hall : ∀ t, t ∈ filter (λ t, target t = i) (pending σ) → handle t = k).
  { intros t [Ht Hp]%list_elem_of_filter. apply (ok_timer _ Hok) in Hp.
    rewrite Ht in Hp. congruence. }
  destruct (filter (λ t, target t = i) (pending σ)) as [|a [|b l]].
  - by apply elem_of_nil in Hin.
  - done.
  - exfalso. cbn in Hnd. apply NoDup_cons in Hnd as [Hna _]. apply Hna.
    rewrite (Hall a), <- (Hall b).
    + by apply elem_of_cons; left.
    + apply elem_of_cons; right. by apply elem_of_cons; left.
    + by apply elem_of_cons; left.
Qed.

Lemma close_close t : close (close t) = close t.
Proof. unfold close. cbn. by rewrite insert_insert_eq. Qed.

Lemma dismiss_targets_closed o st σ :
  dismiss_targets o (eval (reducer st (DISMISS_TOAST o)) σ) = dismiss_targets o st.
Proof. unfold dismiss_targets. destruct (truthy o); [done|apply dismiss_ids]. Qed.

Lemma dismiss_eval_idem o st σ σ' :
  eval (reducer (eval (reducer st (DISMISS_TOAST o)) σ) (DISMISS_TOAST o)) σ'
  = eval (reducer st (DISMISS_TOAST o)) σ.
Proof.
  rewrite !reducer_dismiss_eval. cbn [toasts]. f_equal.
  rewrite <- list_fmap_compose. apply list_fmap_ext. intros n t _. cbn.
  destruct (decide (Some (id t) = o ∨ o = None)) as [H|H].
  - cbn. rewrite decide_True by done. apply close_close.
  - by rewrite decide_False.
Qed.

Lemma dismiss_targets_armed o σ j :
  j ∈ dismiss_targets o (memoryState σ) →
  is_Some (toastTimeouts (exec (dismiss o) σ) !! j).
Proof.
  intros Hj. unfold dismiss.
  destruct (dispatch_timers (DISMISS_TOAST o) σ) as (-> & _).
  rewrite reducer_dismiss_exec. by apply armAll_armed.
Qed.

(** A second [dismiss] right after the first finds every timer in place:
    its reducer call leaves the store alone. *)
Lemma dismiss_again_exec o σ :
  exec (reducer (memoryState (exec (dismiss o) σ)) (DISMISS_TOAST o)) (exec (dismiss o) σ)
  = exec (dismiss o) σ.
Proof.
  rewrite reducer_dismiss_exec. apply armAll_noop. intros j Hj.
  apply dismiss_targets_armed.
  unfold dismiss in Hj. rewrite dispatch_memoryState in Hj.
  by rewrite dismiss_targets_closed in Hj.
Qed.

(** C4: a second [dismiss] with the same argument leaves the toast list,
    the timer map, the host's timers and every other module variable as the
    first left them (the listeners are called once more, with the same
    state).  A timer already recorded for the id is kept under its handle and
    no other timer for the id is registered; in a consistent store an id with
    a map entry has exactly one pending timer, after one call and after
    two. *)
Theorem dismiss_twice σ o :
  let σ1 := exec (dismiss o) σ in
  let σ2 := exec (dismiss o) σ1 in
  (memoryState σ2 = memoryState σ1 ∧ toastTimeouts σ2 = toastTimeouts σ1
   ∧ pending σ2 = pending σ1 ∧ nextTimer σ2 = nextTimer σ1
   ∧ count σ2 = count σ1 ∧ listeners σ2 = listeners σ1 ∧ clock σ2 = clock σ1
   ∧ notified σ2 = notified σ1 ++ ((λ l, (l, memoryState σ1)) <$> listeners σ1))
  ∧ (∀ i k, o = Some i → toastTimeouts σ !! i = Some k →
       toastTimeouts σ1 !! i = Some k
       ∧ filter (λ t, target t = i) (pending σ1) = filter (λ t, target t = i) (pending σ))
  ∧ (∀ i, o = Some i → truthy o = true → is_Some (toastTimeouts σ1 !! i))
  ∧ (∀ i, timers_ok σ → is_Some (toastTimeouts σ1 !! i) →
       length (filter (λ t, target t = i) (pending σ1)) = 1
       ∧ length (filter (λ t, target t = i) (pending σ2)) = 1).
Proof.
  intros σ1 σ2.
  assert (E2 : σ2 = set_notified (notified σ1 ++ ((λ l, (l, memoryState σ1)) <$> listeners σ1))
                      (set_memoryState (memoryState σ1) σ1)).
  { subst σ2. unfold dismiss at 1. rewrite dispatch_exec. cbv zeta.
    subst σ1. rewrite dismiss_again_exec. unfold dismiss.
    by rewrite !dispatch_memoryState, !dismiss_eval_idem. }
  assert (Ett : toastTimeouts σ1
                = toastTimeouts (exec (forEach addToRemoveQueue
                                         (dismiss_targets o (memoryState σ))) σ)
              ∧ pending σ1
                = pending (exec (forEach addToRemoveQueue
                                   (dismiss_targets o (memoryState σ))) σ)).
  { subst σ1. unfold dismiss.
    destruct (dispatch_timers (DISMISS_TOAST o) σ) as (-> & -> & _).
    by rewrite reducer_dismiss_exec. }
  destruct Ett as [Ett Ep].
  split; [by rewrite E2|]. split; [|split].
  - intros i k -> Hk. rewrite Ett, Ep. by apply armAll_keeps.
  - intros i -> Ht. apply dismiss_targets_armed. unfold dismiss_targets. rewrite Ht.
    by apply list_elem_of_singleton.
  - intros i Hok Hi.
    assert (Hok1 : timers_ok σ1) by by apply dispatch_ok.
    split; [by apply one_timer_per_id|].
    replace (pending σ2) with (pending σ1) by by rewrite E2.
    by apply one_timer_per_id.
Qed.

Lemma dismiss_twice_witness :
  length (filter (λ t, target t = "1")
            (pending (exec (dismiss (Some "1")) (exec (dismiss (Some "1")) shown_once))))
  = 1.
Proof.
  destruct (dismiss_twice shown_once (Some "1")) as (_ & _ & Harm & Hone).
  destruct (Hone "1" (reachable_ok _ shown_once_reachable)
              (Harm "1" eq_refl eq_refl)) as [_ H].
  exact H.
Defined.

(** ** Showing a toast *)

(** The next id is not the id of a tracked toast. *)
Lemma genId_untracked σ : reachable σ → eval genId σ ∉ ids σ.
Proof.
  intros Hr Hin. destruct (reachable_tracks_last_shown σ Hr) as [_ Hid].
  apply Hid in Hin. rewrite genId_eval in Hin. by apply genId_changes in Hin.
Qed.

(** C5, counterexample: a payload that sets [open: false] is shown with
    [open: true]; the payload's field is overwritten. *)
Lemma toast_overrides_open :
  ¬ toast_carries_payload initialStore {["open" := VBool false]}.
Proof.
  intros (_ & t & rest & Hts & _ & Hopen & Hp).
  specialize (Hp "open" (VBool false) (lookup_singleton_eq _ _)).
  rewrite Hopen in Hp. discriminate.
Qed.

(** C5, as the code has it: [toast(payload)] returns the id made from the
    bumped counter, different from the id made last; the new state's first
    toast bears that id, has [open] true and [onOpenChange] set to the
    store's own callback, and agrees with the payload on every other field;
    each listener registered at the time is called once, in subscription
    order, with the new state, before [toast] returns. *)
Theorem toast_notifies σ p :
  let i := eval (toast p) σ in
  let σ' := exec (toast p) σ in
  i = pretty ((count σ + 1) mod MAX_SAFE_INTEGER)%N
  ∧ i ≠ pretty (count σ)
  ∧ count σ' = ((count σ + 1) mod MAX_SAFE_INTEGER)%N
  ∧ head (toasts (memoryState σ')) = Some (newToast i p)
  ∧ id (newToast i p) = i
  ∧ props (newToast i p) !! "open" = Some (VBool true)
  ∧ props (newToast i p) !! "onOpenChange" = Some (VOnOpenChange i)
  ∧ (∀ k, k ≠ "open" → k ≠ "onOpenChange" → props (newToast i p) !! k = p !! k)
  ∧ listeners σ' = listeners σ
  ∧ notified σ' = notified σ ++ ((λ l, (l, memoryState σ')) <$> listeners σ).
Proof.
  intros i σ'. subst i σ'. rewrite toast_eval, genId_eval.
  split; [done|]. split; [apply genId_changes|]. split; [apply toast_count|].
  split; [by rewrite toast_memoryState, genId_eval|]. split; [done|].
  split; [cbn; by rewrite lookup_insert_ne, lookup_insert_eq|].
  split; [cbn; by rewrite lookup_insert_eq|].
  split; [intros k H1 H2; cbn; by rewrite !lookup_insert_ne|].
  rewrite toast_exec.
  destruct (dispatch_frame (ADD_TOAST (newToast (eval genId σ) p)) (exec genId σ))
    as (_ & -> & _).
  split; [done|]. by rewrite dispatch_notified.
Qed.

Lemma toast_notifies_witness :
  props (newToast (eval (toast {["title" := VString "X"]}) initialStore)
                  {["title" := VString "X"]}) !! "title"
  = ({["title" := VString "X"]} : Toast) !! "title".
Proof.
  destruct (toast_notifies initialStore {["title" := VString "X"]})
    as (_ & _ & _ & _ & _ & _ & _ & H & _).
  apply H; discriminate.
Defined.

(** ** Updating a toast *)

Lemma spread_lookup t p k :
  props (spread t p) !! k
  = match pprops p !! k with Some v => Some v | None => props t !! k end.
Proof.
  unfold spread. cbn. rewrite lookup_union.
  by destruct (pprops p !! k), (props t !! k).
Qed.

(** C6: [UPDATE_TOAST] with a patch for id [i] keeps the list's length and
    order; a toast with another id is left as it is; a toast with id [i]
    keeps its id, takes the patch's value for every field the patch has, and
    keeps its own value for every field the patch lacks. *)
Theorem update_merges σ p i :
  pid p = Some i →
  let st := memoryState σ in
  let st' := memoryState (exec (dispatch (UPDATE_TOAST p)) σ) in
  length (toasts st') = length (toasts st)
  ∧ ∀ n t, toasts st !! n = Some t →
      ∃ t', toasts st' !! n = Some t'
        ∧ id t' = id t
        ∧ (id t ≠ i → t' = t)
        ∧ (id t = i →
           ∀ k, props t' !! k
                = match pprops p !! k with Some v => Some v | None => props t !! k end).
Proof.
  intros Hp st st'. subst st st'.
  rewrite dispatch_memoryState, reducer_update_eval. cbn [toasts].
  split; [by rewrite length_fmap|].
  intros n t Hn. rewrite list_lookup_fmap, Hn. cbn. eexists. split; [done|].
  rewrite Hp. destruct (decide (Some (id t) = Some i)) as [E|E].
  - split; [apply spread_id; congruence|]. split; [intros Hne; congruence|].
    intros _ k. apply spread_lookup.
  - split; [done|]. split; [done|]. intros Hi. destruct E. by rewrite Hi.
Qed.

Lemma update_merges_witness :
  length (toasts (memoryState (exec (dispatch (UPDATE_TOAST
            {| pid := Some "1"; pprops := {["title" := VString "Y"]} |})) shown_once)))
  = length (toasts (memoryState shown_once)).
Proof.
  destruct (update_merges shown_once
              {| pid := Some "1"; pprops := {["title" := VString "Y"]} |} "1" eq_refl)
    as [H _].
  exact H.
Defined.

Example update_title :
  (λ t, (id t, props t !! "title", props t !! "open"))
    <$> toasts (memoryState (exec (handle_update "1"
                 {| id := "ignored"; props := {["title" := VString "Y"]} |}) shown_once))
  = [("1", Some (VString "Y"), Some (VBool true))].
Proof. vm_compute. done. Qed.

(** ** Dismissal followed by the timer *)

Lemma dismiss_toasts o σ :
  toasts (memoryState (exec (dismiss o) σ))
  = (λ t, if decide (Some (id t) = o ∨ o = None) then close t else t)
      <$> toasts (memoryState σ).
Proof. unfold dismiss. by rewrite dispatch_memoryState. Qed.

Lemma dismiss_keeps_ids o σ : ids (exec (dismiss o) σ) = ids σ.
Proof. unfold ids, dismiss. rewrite dispatch_memoryState. apply dismiss_ids. Qed.

Lemma tracked_is_target o h σ :
  h ∈ ids σ → o = Some h ∨ o = None → h ∈ dismiss_targets o (memoryState σ).
Proof.
  intros Hin Ho. unfold dismiss_targets.
  destruct (truthy o) eqn:Ht; [|done].
  destruct Ho as [-> | ->]; [|done]. by apply list_elem_of_singleton.
Qed.

Lemma arm_pending_mono j t σ :
  t ∈ pending σ → t ∈ pending (exec (addToRemoveQueue j) σ).
Proof.
  intros H. destruct (arm_cases j σ) as [[_ ->]|[_ ->]]; [done|].
  cbn. apply elem_of_app. by left.
Qed.

Lemma armAll_pending_mono l t σ :
  t ∈ pending σ → t ∈ pending (exec (forEach addToRemoveQueue l) σ).
Proof.
  revert σ; induction l as [|j l IH]; intros σ H; [done|].
  rewrite forEach_cons. by apply IH, arm_pending_mono.
Qed.

(** A timer that [addToRemoveQueue] had to create is due one full delay
    from now. *)
Lemma armAll_new_timer h k l σ :
  toastTimeouts σ !! h = None →
  toastTimeouts (exec (forEach addToRemoveQueue l) σ) !! h = Some k →
  {| handle := k; due := (clock σ + TOAST_REMOVE_DELAY)%N; target := h |}
    ∈ pending (exec (forEach addToRemoveQueue l) σ).
Proof.
  revert σ; induction l as [|j l IH]; intros σ Hnone Hk; [cbn in Hk; congruence|].
  rewrite forEach_cons in *.
  destruct (toastTimeouts (exec (addToRemoveQueue j) σ) !! h) as [k'|] eqn:E.
  - destruct (armAll_keeps h l k' _ E) as [Hk' _].
    assert (k' = k) as -> by congruence.
    apply armAll_pending_mono.
    destruct (arm_cases j σ) as [[_ Eq]|[_ Eq]]; rewrite Eq in E |- *; [congruence|].
    cbn in *. destruct (decide (j = h)) as [->|Hne].
    + rewrite lookup_insert_eq in E. injection E as <-.
      apply elem_of_app; right. by apply list_elem_of_singleton.
    + rewrite lookup_insert_ne in E by done. congruence.
  - destruct (arm_frame j σ) as (_ & _ & _ & Hc & _). rewrite <- Hc. by apply IH.
Qed.

Lemma fire_not_due k σ t :
  t ∈ pending σ → handle t = k → NoDup (handle <$> pending σ) →
  (clock σ < due t)%N → fire k σ = None.
Proof.
  intros Hin Hk Hnd Hlt. unfold fire.
  destruct (take_timer_find k (pending σ) t Hin Hk Hnd) as [rest ->].
  rewrite decide_False; [done|lia].
Qed.

Lemma fire_head t ts σ :
  pending σ = t :: ts → (due t ≤ clock σ)%N →
  fire (handle t) σ = Some (exec (timeoutCallback (target t)) (set_pending ts σ)).
Proof.
  intros Hp Hd. unfold fire. rewrite Hp. cbn.
  rewrite decide_True by done. by rewrite decide_True.
Qed.

Lemma run_due_drains_from l σ :
  timers_ok σ → pending σ = l → (∀ t, t ∈ l → (due t ≤ clock σ)%N) →
  let σ' := foldl (λ s t, default s (fire (handle t) s)) σ l in
  pending σ' = [] ∧ timers_ok σ' ∧ ids σ' `sublist_of` ids σ
  ∧ ∀ t, t ∈ l → target t ∉ ids σ'.
Proof.
  revert σ; induction l as [|t l IH]; intros σ Hok Hp Hdue; cbn.
  - split; [done|]. split; [done|]. split; [done|].
    intros t Ht. by apply elem_of_nil in Ht.
  - assert (Hd : (due t ≤ clock σ)%N) by (apply Hdue; by apply elem_of_cons; left).
    pose proof (fire_head t l σ Hp Hd) as Hf. rewrite Hf. cbn [default].
    set (σ1 := exec (timeoutCallback (target t)) (set_pending l σ)) in *.
    assert (Hok1 : timers_ok σ1) by by apply (fire_ok (handle t) σ).
    assert (Hp1 : pending σ1 = l).
    { unfold σ1. rewrite timeoutCallback_exec.
      by destruct (remove_dispatch_timers (Some (target t))
           (set_toastTimeouts (delete (target t) (toastTimeouts (set_pending l σ)))
              (set_pending l σ))) as (_ & -> & _). }
    assert (Hc1 : clock σ1 = clock σ).
    { unfold σ1. rewrite timeoutCallback_exec.
      by destruct (dispatch_frame (REMOVE_TOAST (Some (target t)))
           (set_toastTimeouts (delete (target t) (toastTimeouts (set_pending l σ)))
              (set_pending l σ))) as (_ & _ & ->). }
    assert (Hgone : target t ∉ ids σ1).
    { unfold σ1, ids. rewrite timeoutCallback_exec, dispatch_memoryState,
        reducer_remove_eval. cbn [toasts]. apply filter_id_gone. }
    destruct (IH σ1 Hok1 Hp1) as (H1 & H2 & H3 & H4).
    { intros u Hu. rewrite Hc1. apply Hdue. by apply elem_of_cons; right. }
    split; [done|]. split; [done|]. split.
    + etrans; [exact H3|]. by apply (fire_ids_sublist (handle t)).
    + intros u Hu. apply elem_of_cons in Hu as [->|Hu]; [|by apply H4].
      intros Hin. apply Hgone. by eapply elem_of_sublist.
Qed.

(** Once every pending timer is due, a turn of the host empties the timer
    table and the map, and no id that had a timer is tracked any more. *)
Lemma run_due_drains σ :
  timers_ok σ → (∀ t, t ∈ pending σ → (due t ≤ clock σ)%N) →
  pending (run_due σ) = [] ∧ toastTimeouts (run_due σ) = ∅
  ∧ ∀ i, is_Some (toastTimeouts σ !! i) → i ∉ ids (run_due σ).
Proof.
  intros Hok Hdue.
  destruct (run_due_drains_from (pending σ) σ Hok eq_refl Hdue) as (H1 & H2 & _ & H4).
  fold (run_due σ) in *. split; [done|]. split.
  - apply map_empty. intros i. destruct (toastTimeouts (run_due σ) !! i) as [k|] eqn:E; [|done].
    destruct (ok_entry _ H2 _ _ E) as [d Hd]. rewrite H1 in Hd. by apply elem_of_nil in Hd.
  - intros i [k Hk]. destruct (ok_entry _ Hok _ _ Hk) as [d Hd].
    by apply (H4 _ Hd).
Qed.

(** C7: dismissing a tracked id [h], by name or with the id left out, keeps
    the list's ids as they are, so [h] stays tracked, and every toast
    bearing [h] now has [open] false; a timer is recorded for [h], and when
    the delay has passed and that timer fires, no toast bears [h] any more,
    the map has no entry for [h] and no pending timer targets it.  A timer
    that this call had to create cannot fire before the full delay.  After
    the delay a turn of the host's timer phase leaves nothing pending and
    [h] untracked. *)
Theorem dismiss_then_timer σ o h :
  timers_ok σ → h ∈ ids σ → o = Some h ∨ o = None →
  let σ1 := exec (dismiss o) σ in
  ids σ1 = ids σ
  ∧ h ∈ ids σ1
  ∧ (∀ t, t ∈ toasts (memoryState σ1) → id t = h →
       props t !! "open" = Some (VBool false))
  ∧ ∃ k, toastTimeouts σ1 !! h = Some k
      ∧ (toastTimeouts σ !! h = None →
         ∀ dt, (dt < TOAST_REMOVE_DELAY)%N → fire k (advance dt σ1) = None)
      ∧ ∃ σ2, fire k (advance TOAST_REMOVE_DELAY σ1) = Some σ2
          ∧ (h ∉ ids σ2)
          ∧ toastTimeouts σ2 !! h = None
          ∧ (∀ t, t ∈ pending σ2 → target t ≠ h)
          ∧ (h ∉ ids (run_due (advance TOAST_REMOVE_DELAY σ1)))
          ∧ toastTimeouts (run_due (advance TOAST_REMOVE_DELAY σ1)) = ∅
          ∧ pending (run_due (advance TOAST_REMOVE_DELAY σ1)) = [].
Proof.
  intros Hok Hin Ho σ1. subst σ1.
  split; [apply dismiss_keeps_ids|]. split; [by rewrite dismiss_keeps_ids|]. split.
  - intros t Ht Hid. rewrite dismiss_toasts in Ht.
    apply list_elem_of_fmap in Ht as (t0 & -> & Ht0).
    destruct (decide (Some (id t0) = o ∨ o = None)) as [Hc|Hc].
    + cbn. by rewrite lookup_insert_eq.
    + destruct Hc. destruct Ho as [-> | ->]; [left; by rewrite Hid|by right].
  - destruct (dismiss_targets_armed o σ h (tracked_is_target o h σ Hin Ho)) as [k Hk].
    exists k. split; [done|]. split.
    { intros Hnone dt Hdt.
      assert (Hok1 : timers_ok (exec (dismiss o) σ)) by by apply dispatch_ok.
      apply (fire_not_due k _ {| handle := k; due := (clock σ + TOAST_REMOVE_DELAY)%N;
                                 target := h |}); [|done|apply (ok_handles _ Hok1)|].
      - unfold dismiss in *. cbn [advance pending set_clock].
        destruct (dispatch_timers (DISMISS_TOAST o) σ) as (Ett & -> & _).
        rewrite Ett, reducer_dismiss_exec in Hk. rewrite reducer_dismiss_exec.
        by apply armAll_new_timer.
      - cbn. unfold dismiss.
        destruct (dispatch_frame (DISMISS_TOAST o) σ) as (_ & _ & ->). lia. }
    destruct (fire_after_delay k h (exec (dismiss o) σ))
      as (σ2 & Hf & _ & Htt & Hts & _ & _ & Hp); [by apply dispatch_ok|done|].
    assert (Hok1 : timers_ok (exec (dismiss o) σ)) by by apply dispatch_ok.
    destruct (run_due_drains (advance TOAST_REMOVE_DELAY (exec (dismiss o) σ)))
      as (Hd1 & Hd2 & Hd3); [by apply advance_ok| |].
    { intros t Ht. apply (ok_due _ Hok1) in Ht. cbn. lia. }
    exists σ2. split; [done|]. split; [|split; [|split; [|split; [|split]]]].
    + unfold ids. rewrite Hts. apply filter_id_gone.
    + by rewrite Htt, lookup_delete_eq.
    + intros t Ht. by apply Hp.
    + apply Hd3. cbn. by eexists.
    + done.
    + done.
Qed.

Lemma shown_once_tracks : "1" ∈ ids shown_once.
Proof. vm_compute. by apply list_elem_of_singleton. Qed.

Lemma dismiss_then_timer_witness :
  ∃ k, toastTimeouts (exec (dismiss (Some "1")) shown_once) !! "1" = Some k
     ∧ ∃ σ2, fire k (advance TOAST_REMOVE_DELAY (exec (dismiss (Some "1")) shown_once))
             = Some σ2
          ∧ ("1" ∉ ids σ2).
Proof.
  destruct (dismiss_then_timer shown_once (Some "1") "1"
              (reachable_ok _ shown_once_reachable) shown_once_tracks
              (or_introl eq_refl))
    as (_ & _ & _ & k & Hk & _ & σ2 & Hf & Hgone & _).
  exists k. split; [exact Hk|]. exists σ2. split; [exact Hf|exact Hgone].
Defined.

Example dismiss_scenario :
  let σ1 := exec (dismiss (Some "1")) shown_once in
  (λ t, (id t, props t !! "open")) <$> toasts (memoryState σ1)
  = [("1", Some (VBool false))]
  ∧ fire 0 σ1 = None
  ∧ (ids <$> fire 0 (advance TOAST_REMOVE_DELAY σ1)) = Some [].
Proof. vm_compute. done. Qed.

(** ** Ids that are not tracked *)

Lemma fmap_unchanged {A} (f : A → A) (l : list A) :
  (∀ x, x ∈ l → f x = x) → f <$> l = l.
Proof.
  induction l as [|x l IH]; intros H; [done|]. cbn. f_equal.
  - apply H. by apply elem_of_cons; left.
  - apply IH. intros y Hy. apply H. by apply elem_of_cons; right.
Qed.

Lemma state_eq (st st' : State) : toasts st = toasts st' → st = st'.
Proof. destruct st, st'. cbn. by intros ->. Qed.

Lemma tracked_id (t : ToasterToast) σ : t ∈ toasts (memoryState σ) → id t ∈ ids σ.
Proof. intros H. apply list_elem_of_fmap. by exists t. Qed.

(** C8: for an id no tracked toast bears, [UPDATE_TOAST] (dispatched
    directly or through a handle), [REMOVE_TOAST] and [dismiss] return the
    tracked list as it was; the functions are total, so nothing is raised.
    Removing twice is the same as removing once, tracked or not. *)
Theorem lookup_miss_is_noop σ i :
  i ∉ ids σ →
  (∀ p, pid p = Some i → memoryState (exec (dispatch (UPDATE_TOAST p)) σ) = memoryState σ)
  ∧ (∀ t, memoryState (exec (handle_update i t) σ) = memoryState σ)
  ∧ memoryState (exec (dispatch (REMOVE_TOAST (Some i))) σ) = memoryState σ
  ∧ memoryState (exec (dismiss (Some i)) σ) = memoryState σ
  ∧ memoryState (exec (handle_dismiss i) σ) = memoryState σ
  ∧ ∀ j σ0, memoryState (exec (dispatch (REMOVE_TOAST (Some j)))
                           (exec (dispatch (REMOVE_TOAST (Some j))) σ0))
            = memoryState (exec (dispatch (REMOVE_TOAST (Some j))) σ0).
Proof.
  intros Hi.
  assert (Hupd : ∀ p, pid p = Some i →
            memoryState (exec (dispatch (UPDATE_TOAST p)) σ) = memoryState σ).
  { intros p Hp. apply state_eq. rewrite dispatch_memoryState, reducer_update_eval.
    cbn [toasts]. apply fmap_unchanged. intros t Ht. rewrite decide_False; [done|].
    rewrite Hp. intros [= E]. apply Hi. rewrite <- E. by apply tracked_id. }
  assert (Hdis : memoryState (exec (dismiss (Some i)) σ) = memoryState σ).
  { apply state_eq. rewrite dismiss_toasts. apply fmap_unchanged. intros t Ht.
    rewrite decide_False; [done|]. intros [[= E]|[=]].
    apply Hi. rewrite <- E. by apply tracked_id. }
  split; [done|]. split; [intros t; by apply Hupd|]. split; [|split; [done|split; [done|]]].
  - apply state_eq. rewrite dispatch_memoryState, reducer_remove_eval. cbn [toasts].
    by apply filter_id_absent.
  - intros j σ0. apply state_eq.
    rewrite !dispatch_memoryState, !reducer_remove_eval. cbn [toasts].
    apply filter_id_idem.
Qed.

Lemma lookup_miss_is_noop_witness :
  memoryState (exec (dismiss (Some "5")) shown_once) = memoryState shown_once.
Proof.
  destruct (lookup_miss_is_noop shown_once "5") as (_ & _ & _ & H & _).
  - vm_compute. intros H. apply list_elem_of_singleton in H. discriminate.
  - exact H.
Defined.

(** ** Uniqueness of tracked ids *)

Lemma short_NoDup {A} (l : list A) : length l ≤ 1 → NoDup l.
Proof.
  destruct l as [|x [|y l]]; cbn; intros H.
  - constructor.
  - apply NoDup_singleton.
  - lia.
Qed.

(** C9: in every state the store can reach, the tracked ids are pairwise
    distinct, and the id that the next [toast] call hands out (the counter
    plus one, modulo [MAX_SAFE_INTEGER], in decimal) is borne by no tracked
    toast; the list after that call has distinct ids again. *)
Theorem tracked_ids_distinct σ :
  reachable σ →
  NoDup (ids σ)
  ∧ ∀ p, eval (toast p) σ = pretty ((count σ + 1) mod MAX_SAFE_INTEGER)%N
       ∧ (eval (toast p) σ ∉ ids σ)
       ∧ NoDup (ids (exec (toast p) σ)).
Proof.
  intros Hr.
  assert (Hnd : ∀ σ0, reachable σ0 → NoDup (ids σ0)).
  { intros σ0 H0. apply short_NoDup.
    destruct (reachable_tracks_last_shown σ0 H0) as [Hlen _]. exact Hlen. }
  split; [by apply Hnd|]. intros p.
  split; [by rewrite toast_eval, genId_eval|].
  split; [rewrite toast_eval; by apply genId_untracked|].
  apply Hnd. eapply rtc_r; [exact Hr|apply step_toast].
Qed.

Lemma tracked_ids_distinct_witness :
  NoDup (ids shown_once)
  ∧ eval (toast {["title" := VString "Y"]}) shown_once ∉ ids shown_once.
Proof.
  destruct (tracked_ids_distinct shown_once shown_once_reachable) as [Hnd Hnext].
  destruct (Hnext {["title" := VString "Y"]}) as (_ & Hfresh & _).
  split; [exact Hnd|exact Hfresh].
Defined.

(** ** Dismissing an id that is not tracked *)

(** C10, counterexample: the empty string is falsy, so [dismiss("")] takes
    the branch that walks the tracked toasts; with none tracked, no timer is
    armed. *)
Lemma dismiss_empty_id_arms_nothing :
  ¬ dismiss_arms_timer initialStore ""
  ∧ toastTimeouts (exec (dismiss (Some "")) initialStore) = ∅
  ∧ pending (exec (dismiss (Some "")) initialStore) = [].
Proof.
  split; [|split; vm_compute; done].
  intros H. destruct H as [k Hk].
  - intros Hin. vm_compute in Hin. by apply elem_of_nil in Hin.
  - vm_compute in Hk. discriminate.
Qed.

(** C10, as the code has it: [dismiss(i)] for a non-empty id [i] that no
    tracked toast bears leaves the list as it was and still leaves a timer
    recorded for [i]: a new one, registered with the host and entered into
    [toastTimeouts], unless one was recorded already.  Once the delay has
    passed that timer fires; it drops the entry and dispatches
    [REMOVE_TOAST] for [i], which leaves the list unchanged and calls the
    listeners. *)
Theorem dismiss_unknown_arms_timer σ i :
  i ≠ "" → i ∉ ids σ →
  let σ1 := exec (dismiss (Some i)) σ in
  memoryState σ1 = memoryState σ
  ∧ is_Some (toastTimeouts σ1 !! i)
  ∧ (toastTimeouts σ !! i = None →
       toastTimeouts σ1 = <[i := nextTimer σ]> (toastTimeouts σ)
       ∧ pending σ1 = pending σ ++ [{| handle := nextTimer σ;
                                       due := (clock σ + TOAST_REMOVE_DELAY)%N;
                                       target := i |}])
  ∧ (timers_ok σ → ∀ k, toastTimeouts σ1 !! i = Some k →
       ∃ σ2, fire k (advance TOAST_REMOVE_DELAY σ1) = Some σ2
         ∧ σ2 = exec (dispatch (REMOVE_TOAST (Some i)))
                  (set_toastTimeouts (delete i (toastTimeouts σ1))
                     (set_pending (pending σ2) (advance TOAST_REMOVE_DELAY σ1)))
         ∧ toastTimeouts σ2 !! i = None
         ∧ memoryState σ2 = memoryState σ
         ∧ notified σ2 = notified σ1 ++ ((λ l, (l, memoryState σ)) <$> listeners σ1)).
Proof.
  intros Hne Hi σ1. subst σ1.
  assert (Ht : truthy (Some i) = true) by by destruct i.
  assert (Hm : memoryState (exec (dismiss (Some i)) σ) = memoryState σ).
  { apply state_eq. rewrite dismiss_toasts. apply fmap_unchanged. intros t Ht'.
    rewrite decide_False; [done|]. intros [[= E]|[=]].
    apply Hi. rewrite <- E. by apply tracked_id. }
  assert (Hex : exec (reducer (memoryState σ) (DISMISS_TOAST (Some i))) σ
                = exec (addToRemoveQueue i) σ).
  { rewrite reducer_dismiss_exec. unfold dismiss_targets. by rewrite Ht. }
  split; [done|]. split; [|split].
  - apply dismiss_targets_armed. unfold dismiss_targets. rewrite Ht.
    by apply list_elem_of_singleton.
  - intros Hnone. unfold dismiss.
    destruct (dispatch_timers (DISMISS_TOAST (Some i)) σ) as (-> & -> & _).
    by rewrite Hex, arm_new.
  - intros Hok k Hk.
    destruct (fire_after_delay k i (exec (dismiss (Some i)) σ))
      as (σ2 & Hf & Hσ2 & Htt & Hts & _ & Hn & _); [by apply dispatch_ok|done|].
    exists σ2. split; [done|]. split; [done|].
    split; [by rewrite Htt, lookup_delete_eq|].
    assert (Hm2 : memoryState σ2 = memoryState σ).
    { apply state_eq. rewrite Hts, Hm. by apply filter_id_absent. }
    split; [done|]. by rewrite Hn, Hm2.
Qed.

Lemma dismiss_unknown_arms_timer_witness :
  is_Some (toastTimeouts (exec (dismiss (Some "5")) shown_once) !! "5").
Proof.
  destruct (dismiss_unknown_arms_timer shown_once "5") as (_ & H & _).
  - discriminate.
  - vm_compute. intros H. apply list_elem_of_singleton in H. discriminate.
  - exact H.
Defined.

Example dismiss_unknown_scenario :
  let σ1 := exec (dismiss (Some "5")) shown_once in
  ids σ1 = ["1"]
  ∧ toastTimeouts σ1 !! "5" = Some 0
  ∧ (ids <$> fire 0 (advance TOAST_REMOVE_DELAY σ1)) = Some ["1"]
  ∧ (length ∘ notified <$> fire 0 (advance TOAST_REMOVE_DELAY σ1))
    = Some (S (length (notified σ1))).
Proof. vm_compute. done. Qed.

(** * Further properties of the store *)

(** ** The id counter *)

Lemma genIdTimes_succ n σ : genIdTimes (N.succ n) σ = exec genId (genIdTimes n σ).
Proof. unfold genIdTimes. apply N.iter_succ. Qed.

Lemma genIdTimes_next n σ :
  eval genId (genIdTimes n σ) = pretty ((count σ + n + 1) mod MAX_SAFE_INTEGER)%N.
Proof.
  rewrite genId_eval. f_equal. induction n as [|n IH] using N.peano_ind.
  - cbn. by rewrite N.add_0_r.
  - rewrite genIdTimes_succ, genId_exec. cbn [count set_count].
    rewrite IH, N.Div0.add_mod_idemp_l. f_equal. lia.
Qed.

Lemma mod_shift_ne (a d m : N) :
  (0 < d)%N → (d < m)%N → ((a + d) mod m ≠ a mod m)%N.
Proof.
  intros Hd Hm E. rewrite <- N.Div0.add_mod_idemp_l in E.
  pose proof (N.mod_upper_bound a m ltac:(lia)) as Hr.
  destruct (decide (a mod m + d < m)%N) as [Hlt|Hge].
  - rewrite N.mod_small in E by done. lia.
  - replace (a mod m + d)%N with ((a mod m + d - m) + 1 * m)%N in E at 1 by lia.
    rewrite N.Div0.mod_add, N.mod_small in E by lia. lia.
Qed.

(** X1: the id handed out after [n + d] calls differs from the one handed
    out after [n] calls as long as [0 < d < MAX_SAFE_INTEGER]; after exactly
    [MAX_SAFE_INTEGER] further calls the same id comes round again. *)
Theorem genId_period σ n d :
  ((0 < d)%N → (d < MAX_SAFE_INTEGER)%N →
     eval genId (genIdTimes (n + d) σ) ≠ eval genId (genIdTimes n σ))
  ∧ eval genId (genIdTimes (n + MAX_SAFE_INTEGER) σ) = eval genId (genIdTimes n σ).
Proof.
  rewrite !genIdTimes_next. split.
  - intros Hd Hm E. apply (inj pretty) in E.
    apply (mod_shift_ne (count σ + n + 1) d MAX_SAFE_INTEGER Hd Hm).
    rewrite <- E. f_equal. lia.
  - f_equal.
    replace (count σ + (n + MAX_SAFE_INTEGER) + 1)%N
      with ((count σ + n + 1) + 1 * MAX_SAFE_INTEGER)%N by lia.
    apply N.Div0.mod_add.
Qed.

Lemma genId_period_witness :
  eval genId (genIdTimes (0 + 1) initialStore) ≠ eval genId (genIdTimes 0 initialStore).
Proof.
  destruct (genId_period initialStore 0 1) as [H _].
  apply H; [reflexivity|reflexivity].
Defined.

Lemma pretty_N_go_nonempty (x : N) (s : string) : s ≠ "" → pretty_N_go x s ≠ "".
Proof.
  revert s. induction (N.lt_wf_0 x) as [x _ IH]. intros s Hs.
  destruct (decide (0 < x)%N) as [Hx|Hx].
  - rewrite pretty_N_go_step by done. apply IH; [|done].
    apply N.div_lt; lia.
  - assert (x = 0%N) as -> by lia. by rewrite pretty_N_go_0.
Qed.

Lemma pretty_N_nonempty (x : N) : (pretty x : string) ≠ "".
Proof.
  unfold pretty, pretty_N. destruct (decide (x = 0%N)) as [->|Hx]; [done|].
  rewrite pretty_N_go_step by lia. by apply pretty_N_go_nonempty.
Qed.

Lemma toast_id_truthy σ p :
  truthy (Some (eval (toast p) σ)) = true
  ∧ ∀ st, dismiss_targets (Some (eval (toast p) σ)) st = [eval (toast p) σ].
Proof.
  assert (Ht : truthy (Some (eval (toast p) σ)) = true).
  { pose proof (pretty_N_nonempty ((count σ + 1) mod MAX_SAFE_INTEGER)%N) as Hne.
    rewrite toast_eval, genId_eval. by destruct (pretty _). }
  split; [done|]. intros st. unfold dismiss_targets. by rewrite Ht.
Qed.

(** X2: the id that [toast] returns is never the empty string, so a
    handle's [dismiss] always takes the branch for a given id: the only id
    it passes to [addToRemoveQueue] is its own. *)
Theorem toast_id_nonempty σ p :
  eval (toast p) σ ≠ ""
  ∧ truthy (Some (eval (toast p) σ)) = true
  ∧ ∀ st, dismiss_targets (Some (eval (toast p) σ)) st = [eval (toast p) σ].
Proof.
  assert (Hne : eval (toast p) σ ≠ "").
  { rewrite toast_eval, genId_eval. apply pretty_N_nonempty. }
  assert (Ht : truthy (Some (eval (toast p) σ)) = true).
  { destruct (eval (toast p) σ); [done|done]. }
  split; [done|]. split; [done|].
  intros st. unfold dismiss_targets. by rewrite Ht.
Qed.

(** ** Which timers a dismissal arms *)

Lemma arm_shape i σ :
  ∃ new, pending (exec (addToRemoveQueue i) σ) = pending σ ++ new
    ∧ Forall (λ t, target t = i ∧ toastTimeouts σ !! i = None
                   ∧ due t = (clock σ + TOAST_REMOVE_DELAY)%N) new
    ∧ (∀ j, j ≠ i →
         toastTimeouts (exec (addToRemoveQueue i) σ) !! j = toastTimeouts σ !! j).
Proof.
  destruct (arm_cases i σ) as [[_ ->]|[E ->]].
  - exists []. split; [by rewrite app_nil_r|]. split; [constructor|done].
  - eexists. split; [done|]. split.
    + constructor; [done|constructor].
    + intros j Hj. cbn. by rewrite lookup_insert_ne.
Qed.

Lemma armAll_shape l σ :
  ∃ new, pending (exec (forEach addToRemoveQueue l) σ) = pending σ ++ new
    ∧ Forall (λ t, target t ∈ l ∧ toastTimeouts σ !! target t = None
                   ∧ due t = (clock σ + TOAST_REMOVE_DELAY)%N) new
    ∧ (∀ j, j ∉ l →
         toastTimeouts (exec (forEach addToRemoveQueue l) σ) !! j = toastTimeouts σ !! j).
Proof.
  revert σ; induction l as [|i l IH]; intros σ.
  - exists []. split; [by rewrite app_nil_r|]. split; [constructor|done].
  - rewrite forEach_cons.
    destruct (arm_shape i σ) as (new1 & Hp1 & Hf1 & Ho1).
    destruct (IH (exec (addToRemoveQueue i) σ)) as (new2 & Hp2 & Hf2 & Ho2).
    destruct (arm_frame i σ) as (_ & _ & _ & Hc & _).
    exists (new1 ++ new2). split; [by rewrite Hp2, Hp1, app_assoc|]. split.
    + apply Forall_app. split.
      * eapply Forall_impl; [exact Hf1|]. intros t (Ht & Hn & Hd).
        split; [rewrite Ht; by apply elem_of_cons; left|]. by rewrite Ht.
      * eapply Forall_impl; [exact Hf2|]. intros t (Ht & Hn & Hd).
        split; [by apply elem_of_cons; right|]. split; [|by rewrite Hd, Hc].
        destruct (toastTimeouts σ !! target t) as [k|] eqn:E; [|done].
        destruct (arm_mono i (target t) σ) as [k' Hk']; [by eexists|]. congruence.
    + intros j Hj. apply not_elem_of_cons in Hj as [Hji Hjl].
      rewrite Ho2 by done. by apply Ho1.
Qed.

(** X3: a dismissal only ever adds timers, at the end of the host's table:
    each added timer targets an id the dismissal addresses, for which no
    timer was recorded, and is due one full delay from now; entries that
    exist keep their handle, and ids the dismissal does not address keep
    their entry or their lack of one. *)
Theorem dismiss_arms_only_targets σ o :
  let σ1 := exec (dismiss o) σ in
  (∃ new, pending σ1 = pending σ ++ new
     ∧ Forall (λ t, target t ∈ dismiss_targets o (memoryState σ)
                    ∧ toastTimeouts σ !! target t = None
                    ∧ due t = (clock σ + TOAST_REMOVE_DELAY)%N) new)
  ∧ (∀ j, j ∉ dismiss_targets o (memoryState σ) →
       toastTimeouts σ1 !! j = toastTimeouts σ !! j)
  ∧ (∀ j k, toastTimeouts σ !! j = Some k → toastTimeouts σ1 !! j = Some k).
Proof.
  intros σ1. subst σ1. unfold dismiss.
  destruct (dispatch_timers (DISMISS_TOAST o) σ) as (-> & -> & _).
  rewrite reducer_dismiss_exec.
  destruct (armAll_shape (dismiss_targets o (memoryState σ)) σ) as (new & Hp & Hf & Ho).
  split; [by exists new|]. split; [done|].
  intros j k Hk. by apply armAll_keeps.
Qed.

Lemma dismiss_arms_only_targets_witness :
  toastTimeouts (exec (dismiss (Some "1")) shown_once) !! "2"
  = toastTimeouts shown_once !! "2".
Proof.
  destruct (dismiss_arms_only_targets shown_once (Some "1")) as (_ & H & _).
  apply H. vm_compute. intros Hin. apply list_elem_of_singleton in Hin. discriminate.
Defined.

(** ** Dismissing the empty string *)

Lemma dismiss_untracked_state i σ :
  i ∉ ids σ → memoryState (exec (dismiss (Some i)) σ) = memoryState σ.
Proof.
  intros Hi. apply state_eq. rewrite dismiss_toasts. apply fmap_unchanged. intros t Ht.
  rewrite decide_False; [done|]. intros [[= E]|[=]].
  apply Hi. rewrite <- E. by apply tracked_id.
Qed.

Lemma reachable_ids_nonempty σ : reachable σ → "" ∉ ids σ.
Proof.
  intros Hr Hin. destruct (reachable_tracks_last_shown σ Hr) as [_ Hid].
  apply Hid in Hin. symmetry in Hin. by apply pretty_N_nonempty in Hin.
Qed.

(** X4: in a reachable store [dismiss("")] closes nothing, since no tracked
    toast bears the empty id and the list comes back as it was, yet it arms
    a removal timer for every tracked toast, because the empty string fails
    the test that selects the branch for a given id. *)
Theorem dismiss_empty_string σ :
  reachable σ →
  let σ1 := exec (dismiss (Some "")) σ in
  memoryState σ1 = memoryState σ
  ∧ ∀ h, h ∈ ids σ → is_Some (toastTimeouts σ1 !! h).
Proof.
  intros Hr σ1. subst σ1. split.
  - apply dismiss_untracked_state. by apply reachable_ids_nonempty.
  - intros h Hh. by apply dismiss_targets_armed.
Qed.

Lemma dismiss_empty_string_witness :
  memoryState (exec (dismiss (Some "")) shown_once) = memoryState shown_once
  ∧ is_Some (toastTimeouts (exec (dismiss (Some "")) shown_once) !! "1").
Proof.
  destruct (dismiss_empty_string shown_once shown_once_reachable) as [H1 H2].
  split; [exact H1|]. apply H2. exact shown_once_tracks.
Defined.

(** ** Subscribing and unsubscribing *)

Lemma store_eta σ : set_listeners (listeners σ) σ = σ.
Proof. by destruct σ. Qed.

Lemma remove_first_absent x l : x ∉ l → remove_first x l = l.
Proof.
  induction l as [|y l IH]; intros H; [done|].
  apply not_elem_of_cons in H as [Hne Hl]. cbn.
  rewrite decide_False by done. by rewrite IH.
Qed.

Lemma remove_first_split x l :
  x ∈ l →
  ∃ l1 l2, l = l1 ++ x :: l2 ∧ (x ∉ l1) ∧ remove_first x l = l1 ++ l2.
Proof.
  induction l as [|y l IH]; intros H; [by apply elem_of_nil in H|].
  cbn. destruct (decide (y = x)) as [->|Hne].
  - exists [], l. split; [done|]. split; [apply not_elem_of_nil|done].
  - apply elem_of_cons in H as [->|H]; [done|].
    destruct (IH H) as (l1 & l2 & -> & Hn & ->).
    exists (y :: l1), l2. split; [done|]. split; [|done].
    apply not_elem_of_cons. split; [congruence|done].
Qed.

Lemma remove_first_snoc x l : x ∉ l → remove_first x (l ++ [x]) = l.
Proof.
  induction l as [|y l IH]; intros H; cbn.
  - by rewrite decide_True.
  - apply not_elem_of_cons in H as [Hne Hl].
    rewrite decide_False by done. by rewrite IH.
Qed.

(** X5: unsubscribing a listener that is not registered changes nothing;
    unsubscribing a registered one takes out its earliest registration and
    keeps everything else in order; subscribing and then unsubscribing a
    listener that was not registered before gives back the store. *)
Theorem unsubscribe_spec σ l :
  (l ∉ listeners σ → exec (unsubscribe l) σ = σ)
  ∧ (l ∈ listeners σ →
     ∃ l1 l2, listeners σ = l1 ++ l :: l2 ∧ (l ∉ l1)
       ∧ listeners (exec (unsubscribe l) σ) = l1 ++ l2)
  ∧ (l ∉ listeners σ → exec (unsubscribe l) (exec (subscribe l) σ) = σ)
  ∧ listeners (exec (unsubscribe l) (exec (subscribe l) σ)) ≡ₚ listeners σ.
Proof.
  split; [|split; [|split]].
  - intros H. unfold unsubscribe. munfold. unfold modify. cbn.
    rewrite remove_first_absent by done. apply store_eta.
  - intros H. destruct (remove_first_split l (listeners σ) H) as (l1 & l2 & E & Hn & Hr).
    exists l1, l2. split; [done|]. split; [done|]. exact Hr.
  - intros H.
    change (exec (unsubscribe l) (exec (subscribe l) σ))
      with (set_listeners (remove_first l (listeners σ ++ [l]))
              (set_listeners (listeners σ ++ [l]) σ)).
    rewrite remove_first_snoc by done. by destruct σ.
  - change (listeners (exec (unsubscribe l) (exec (subscribe l) σ)))
      with (remove_first l (listeners σ ++ [l])).
    destruct (remove_first_split l (listeners σ ++ [l])) as (l1 & l2 & E & _ & ->).
    { apply elem_of_app. right. by apply list_elem_of_singleton. }
    apply (Permutation_cons_inv (a := l)).
    rewrite Permutation_middle, <- E. symmetry. apply Permutation_cons_append.
Qed.

Lemma unsubscribe_spec_witness :
  exec (unsubscribe 9) shown_once = shown_once
  ∧ ∃ l1 l2, listeners shown_once = l1 ++ 7 :: l2
      ∧ listeners (exec (unsubscribe 7) shown_once) = l1 ++ l2.
Proof.
  split.
  - destruct (unsubscribe_spec shown_once 9) as (H & _). apply H.
    vm_compute. intros Hin. apply list_elem_of_singleton in Hin. discriminate.
  - destruct (unsubscribe_spec shown_once 7) as (_ & H & _).
    destruct H as (l1 & l2 & E & _ & Hr).
    + vm_compute. by apply list_elem_of_singleton.
    + exists l1, l2. split; [exact E|exact Hr].
Defined.

(** ** What listeners are told *)

(** X6: whatever the action, and whether or not it changes the list, a
    dispatch calls the listeners registered at the time once per
    registration, in registration order, each with the state that
    [memoryState] holds after the dispatch; the registrations stay as they
    were. *)
Theorem dispatch_notifies_all a σ :
  let σ' := exec (dispatch a) σ in
  ∃ new, notified σ' = notified σ ++ new
    ∧ new.*1 = listeners σ
    ∧ Forall (λ c, c.2 = memoryState σ') new
    ∧ listeners σ' = listeners σ.
Proof.
  intros σ'. subst σ'.
  exists ((λ l, (l, memoryState (exec (dispatch a) σ))) <$> listeners σ).
  split; [apply dispatch_notified|]. split; [|split].
  - rewrite <- list_fmap_compose. by apply fmap_unchanged.
  - apply Forall_fmap, Forall_true. done.
  - by destruct (dispatch_frame a σ) as (_ & -> & _).
Qed.

(** ** What listeners can have seen *)

Lemma step_notified σ σ' :
  step σ σ' →
  ∃ new, notified σ' = notified σ ++ new ∧ Forall (λ c, c.2 = memoryState σ') new.
Proof.
  assert (Hd : ∀ a σ0, ∃ new,
            notified (exec (dispatch a) σ0) = notified σ0 ++ new
            ∧ Forall (λ c, c.2 = memoryState (exec (dispatch a) σ0)) new).
  { intros a σ0. eexists. split; [apply dispatch_notified|].
    apply Forall_fmap, Forall_true. done. }
  assert (Hn : ∀ σ1 σ2 : Store, notified σ2 = notified σ1 →
            ∃ new, notified σ2 = notified σ1 ++ new
                   ∧ Forall (λ c, c.2 = memoryState σ2) new).
  { intros σ1 σ2 E. exists []. split; [by rewrite app_nil_r|constructor]. }
  intros Hs. destruct Hs as [p σ|i t σ|i σ|i [] σ|o σ|l σ|l σ|st a σ|dt σ|k σ σ' Hf].
  - rewrite toast_exec. apply (Hd _ (exec genId σ)).
  - apply Hd.
  - apply Hd.
  - by apply Hn.
  - apply Hd.
  - apply Hd.
  - by apply Hn.
  - by apply Hn.
  - apply Hn. by destruct (reducer_frame st a σ) as (_ & _ & _ & _ & ->).
  - by apply Hn.
  - apply fire_Some in Hf as (t & rest & _ & _ & ->). rewrite timeoutCallback_exec.
    apply (Hd _ (set_toastTimeouts (delete (target t) (toastTimeouts (set_pending rest σ)))
                   (set_pending rest σ))).
Qed.

(** X7: every state that a listener has ever been handed, in any run of
    the store, holds at most [TOAST_LIMIT] toasts, and their ids are
    pairwise distinct. *)
Theorem listeners_see_limited_states σ :
  reachable σ →
  Forall (λ c, length (toasts c.2) ≤ TOAST_LIMIT ∧ NoDup (id <$> toasts c.2))
         (notified σ).
Proof.
  revert σ. apply reachable_invariant; [constructor|].
  intros σ σ' Hr Hs IH.
  destruct (step_notified σ σ' Hs) as (new & -> & Hnew).
  apply Forall_app. split; [done|].
  assert (Hr' : reachable σ') by (eapply rtc_r; [exact Hr|exact Hs]).
  destruct (reachable_tracks_last_shown σ' Hr') as [Hlen _].
  unfold ids in Hlen. rewrite length_fmap in Hlen.
  eapply Forall_impl; [exact Hnew|]. intros c ->. split; [done|].
  apply short_NoDup. rewrite length_fmap. exact Hlen.
Qed.

Lemma listeners_see_limited_states_witness :
  Forall (λ c, length (toasts c.2) ≤ TOAST_LIMIT ∧ NoDup (id <$> toasts c.2))
         (notified dismissed_once).
Proof. exact (listeners_see_limited_states dismissed_once dismissed_once_reachable). Defined.

(** ** Timers and map entries correspond *)

Lemma handle_inj_on_pending σ x y :
  NoDup (handle <$> pending σ) → x ∈ pending σ → y ∈ pending σ →
  handle x = handle y → x = y.
Proof.
  intros Hnd Hx Hy E.
  apply list_elem_of_lookup in Hx as [i Hi]. apply list_elem_of_lookup in Hy as [j Hj].
  assert (i = j) as ->.
  { apply (NoDup_lookup (handle <$> pending σ) i j (handle x) Hnd).
    - by rewrite list_lookup_fmap, Hi.
    - by rewrite list_lookup_fmap, Hj, E. }
  congruence.
Qed.

Lemma timers_ok_targets σ : timers_ok σ → NoDup (target <$> pending σ).
Proof.
  intros Hok. apply NoDup_fmap_2_strong.
  - intros x y Hx Hy E. apply (handle_inj_on_pending σ); [apply (ok_handles _ Hok)|done|done|].
    pose proof (ok_timer _ Hok _ Hx) as Ex. pose proof (ok_timer _ Hok _ Hy) as Ey.
    rewrite E in Ex. congruence.
  - eapply NoDup_fmap_1. apply (ok_handles _ Hok).
Qed.

Lemma timers_ok_map σ :
  timers_ok σ →
  toastTimeouts σ = list_to_map ((λ t, (target t, handle t)) <$> pending σ).
Proof.
  intros Hok. apply map_eq. intros i.
  assert (Hfst : ((λ t, (target t, handle t)) <$> pending σ).*1 = target <$> pending σ).
  { rewrite <- list_fmap_compose. done. }
  destruct (toastTimeouts σ !! i) as [k|] eqn:E; symmetry.
  - apply elem_of_list_to_map_1; [rewrite Hfst; by apply timers_ok_targets|].
    destruct (ok_entry _ Hok _ _ E) as [d Hd].
    apply list_elem_of_fmap. exists {| handle := k; due := d; target := i |}. by split.
  - apply not_elem_of_list_to_map. rewrite Hfst.
    intros (t & -> & Ht)%list_elem_of_fmap.
    apply (ok_timer _ Hok) in Ht. congruence.
Qed.

(** X8: in every reachable store the map [toastTimeouts] is exactly the
    table of pending timers read as id ↦ handle: no id has two pending
    timers, no timer lacks its entry, no entry lacks its timer, and there
    are as many entries as pending timers. *)
Theorem timers_match_entries σ :
  reachable σ →
  NoDup (target <$> pending σ)
  ∧ toastTimeouts σ = list_to_map ((λ t, (target t, handle t)) <$> pending σ)
  ∧ size (toastTimeouts σ) = length (pending σ).
Proof.
  intros Hr. pose proof (reachable_ok σ Hr) as Hok.
  split; [by apply timers_ok_targets|]. split; [by apply timers_ok_map|].
  rewrite (timers_ok_map σ Hok), map_size_list_to_map, length_fmap; [done|].
  rewrite <- list_fmap_compose. by apply timers_ok_targets.
Qed.

Lemma timers_match_entries_witness :
  size (toastTimeouts dismissed_once) = length (pending dismissed_once).
Proof.
  destruct (timers_match_entries dismissed_once dismissed_once_reachable) as (_ & _ & H).
  exact H.
Defined.

(** ** A timer firing, in full *)

Lemma take_timer_split k ts t rest :
  take_timer k ts = Some (t, rest) →
  ∃ l1 l2, ts = l1 ++ t :: l2 ∧ Forall (λ u, handle u ≠ k) l1
    ∧ handle t = k ∧ rest = l1 ++ l2.
Proof.
  revert rest; induction ts as [|u ts IH]; intros rest H; [done|].
  cbn in H. destruct (decide (handle u = k)) as [Hk|Hk].
  - injection H as <- <-. exists [], ts. by repeat split.
  - destruct (take_timer k ts) as [[t0 rest0]|] eqn:E; [|done].
    injection H as <- <-. destruct (IH _ eq_refl) as (l1 & l2 & -> & Hf & Hh & ->).
    exists (u :: l1), l2. split; [done|]. split; [by constructor|done].
Qed.

Lemma take_timer_None k ts :
  Forall (λ u, handle u ≠ k) ts → take_timer k ts = None.
Proof.
  induction 1 as [|u ts Hu _ IH]; [done|].
  cbn. rewrite decide_False by done. by rewrite IH.
Qed.

(** X9: when the host fires timer [k], that timer was the first in the
    table with handle [k] and was due; it leaves the table, the others stay
    in order; the map loses the entry of the timer's id and no other; the
    list loses the toasts bearing that id and keeps the others in order;
    each listener is called once with the new state.  A handle that no
    pending timer has does not fire. *)
Theorem timer_fires σ k :
  (∀ σ', fire k σ = Some σ' →
     ∃ t l1 l2, pending σ = l1 ++ t :: l2
       ∧ Forall (λ u, handle u ≠ k) l1 ∧ handle t = k ∧ (due t ≤ clock σ)%N
       ∧ pending σ' = l1 ++ l2
       ∧ toastTimeouts σ' = delete (target t) (toastTimeouts σ)
       ∧ toasts (memoryState σ')
         = filter (λ u, id u ≠ target t) (toasts (memoryState σ))
       ∧ notified σ' = notified σ ++ ((λ l, (l, memoryState σ')) <$> listeners σ)
       ∧ listeners σ' = listeners σ ∧ count σ' = count σ ∧ clock σ' = clock σ)
  ∧ (Forall (λ u, handle u ≠ k) (pending σ) → fire k σ = None).
Proof.
  split.
  - intros σ' (t & rest & Htake & Hd & ->)%fire_Some.
    destruct (take_timer_split _ _ _ _ Htake) as (l1 & l2 & Hp & Hf & Hk & ->).
    exists t, l1, l2. rewrite timeoutCallback_exec.
    set (σ1 := set_toastTimeouts (delete (target t) (toastTimeouts (set_pending (l1 ++ l2) σ)))
                 (set_pending (l1 ++ l2) σ)).
    destruct (remove_dispatch_timers (Some (target t)) σ1) as (Ett & Ep & _).
    destruct (dispatch_frame (REMOVE_TOAST (Some (target t))) σ1) as (Ec & El & Ek).
    split; [done|]. split; [done|]. split; [done|]. split; [done|].
    split; [by rewrite Ep|]. split; [by rewrite Ett|].
    split; [by rewrite dispatch_memoryState|].
    split; [by rewrite dispatch_notified|]. by rewrite Ec, El, Ek.
  - intros H. unfold fire. by rewrite take_timer_None.
Qed.

Lemma timer_fires_witness :
  ∃ σ' t l1 l2, fire 0 (advance TOAST_REMOVE_DELAY dismissed_once) = Some σ'
    ∧ pending (advance TOAST_REMOVE_DELAY dismissed_once) = l1 ++ t :: l2
    ∧ pending σ' = l1 ++ l2.
Proof.
  destruct (timer_fires (advance TOAST_REMOVE_DELAY dismissed_once) 0) as [H _].
  destruct (H (default initialStore (fire 0 (advance TOAST_REMOVE_DELAY dismissed_once))))
    as (t & l1 & l2 & Hp & _ & _ & _ & Hp' & _).
  - vm_compute. reflexivity.
  - exists (default initialStore (fire 0 (advance TOAST_REMOVE_DELAY dismissed_once))),
      t, l1, l2.
    split; [vm_compute; reflexivity|]. split; [exact Hp|exact Hp'].
Defined.

(** ** Updates compose *)

Lemma spread_spread t p1 p2 :
  pid p1 = pid p2 →
  spread (spread t p1) p2
  = spread t {| pid := pid p1; pprops := pprops p2 ∪ pprops p1 |}.
Proof.
  intros E. unfold spread. cbn. rewrite E. f_equal.
  - by destruct (pid p2).
  - by rewrite (assoc_L (∪)).
Qed.

(** X10: two updates addressed to the same id act as one update with the
    two patches merged, the later patch winning where both set a field; in
    particular an update applied twice is the update applied once. *)
Theorem updates_compose σ p1 p2 :
  (pid p1 = pid p2 →
   memoryState (exec (dispatch (UPDATE_TOAST p2)) (exec (dispatch (UPDATE_TOAST p1)) σ))
   = memoryState (exec (dispatch (UPDATE_TOAST
                     {| pid := pid p1; pprops := pprops p2 ∪ pprops p1 |})) σ))
  ∧ memoryState (exec (dispatch (UPDATE_TOAST p1)) (exec (dispatch (UPDATE_TOAST p1)) σ))
    = memoryState (exec (dispatch (UPDATE_TOAST p1)) σ).
Proof.
  assert (H : ∀ q1 q2, pid q1 = pid q2 →
    memoryState (exec (dispatch (UPDATE_TOAST q2)) (exec (dispatch (UPDATE_TOAST q1)) σ))
    = memoryState (exec (dispatch (UPDATE_TOAST
                      {| pid := pid q1; pprops := pprops q2 ∪ pprops q1 |})) σ)).
  { intros q1 q2 E. apply state_eq.
    rewrite !dispatch_memoryState, !reducer_update_eval. cbn [toasts pid].
    rewrite <- list_fmap_compose. apply list_fmap_ext. intros n t _. cbn.
    destruct (decide (Some (id t) = pid q1)) as [H1|H1].
    - rewrite spread_id by done. rewrite decide_True by congruence.
      by apply spread_spread.
    - by rewrite decide_False by congruence. }
  split; [apply H|].
  rewrite (H p1 p1 eq_refl). destruct p1 as [i m]. cbn [pid pprops].
  by rewrite (idemp_L (∪) m).
Qed.

Lemma updates_compose_witness :
  memoryState (exec (dispatch (UPDATE_TOAST {| pid := Some "1";
                                               pprops := {["title" := VString "Z"]} |}))
                 (exec (dispatch (UPDATE_TOAST {| pid := Some "1";
                                                  pprops := {["title" := VString "Y"]} |}))
                    shown_once))
  = memoryState (exec (dispatch (UPDATE_TOAST
       {| pid := Some "1";
          pprops := {["title" := VString "Z"]} ∪ {["title" := VString "Y"]} |}))
       shown_once).
Proof.
  destruct (updates_compose shown_once
              {| pid := Some "1"; pprops := {["title" := VString "Y"]} |}
              {| pid := Some "1"; pprops := {["title" := VString "Z"]} |}) as [H _].
  exact (H eq_refl).
Defined.

(** ** Only showing brings an id into the list *)

Lemma dispatchAll_ids_sublist acts σ :
  Forall (λ a, ∀ t, a ≠ ADD_TOAST t) acts →
  ids (exec (forEach dispatch acts) σ) `sublist_of` ids σ.
Proof.
  intros H. revert σ. induction H as [|a acts Ha _ IH]; intros σ; [done|].
  rewrite forEach_cons. etrans; [apply IH|]. by apply dispatch_ids_sublist.
Qed.

(** X11: through any run of [UPDATE_TOAST], [DISMISS_TOAST] and
    [REMOVE_TOAST] dispatches the tracked ids stay a sub-sequence of what
    they were: none is added, none changes place, and an id that was removed
    stays absent; updates and dismissals keep the ids exactly. *)
Theorem only_show_adds_ids σ acts :
  Forall (λ a, ∀ t, a ≠ ADD_TOAST t) acts →
  ids (exec (forEach dispatch acts) σ) `sublist_of` ids σ
  ∧ (∀ i, i ∉ ids (exec (forEach dispatch acts)
                      (exec (dispatch (REMOVE_TOAST (Some i))) σ)))
  ∧ (∀ p, ids (exec (dispatch (UPDATE_TOAST p)) σ) = ids σ)
  ∧ (∀ o, ids (exec (dispatch (DISMISS_TOAST o)) σ) = ids σ).
Proof.
  intros H. split; [by apply dispatchAll_ids_sublist|]. split; [|split].
  - intros i Hin.
    eapply elem_of_sublist in Hin; [|by apply dispatchAll_ids_sublist].
    revert Hin. unfold ids. rewrite dispatch_memoryState, reducer_remove_eval.
    apply filter_id_gone.
  - intros p. unfold ids. rewrite dispatch_memoryState. apply update_ids.
  - intros o. unfold ids. rewrite dispatch_memoryState. apply dismiss_ids.
Qed.

Lemma only_show_adds_ids_witness :
  "1" ∉ ids (exec (forEach dispatch
                     [UPDATE_TOAST {| pid := Some "1"; pprops := ∅ |};
                      DISMISS_TOAST (Some "1")])
               (exec (dispatch (REMOVE_TOAST (Some "1"))) shown_once)).
Proof.
  destruct (only_show_adds_ids shown_once
              [UPDATE_TOAST {| pid := Some "1"; pprops := ∅ |};
               DISMISS_TOAST (Some "1")]) as (_ & H & _).
  - repeat constructor; discriminate.
  - apply H.
Defined.

(** ** The store's standing invariant *)

Lemma dispatch_count a σ : count (exec (dispatch a) σ) = count σ.
Proof. by destruct (dispatch_frame a σ) as (-> & _). Qed.

Lemma step_count σ σ' :
  step σ σ' →
  count σ' = count σ ∨ count σ' = ((count σ + 1) mod MAX_SAFE_INTEGER)%N.
Proof.
  intros Hs. destruct Hs as [p σ|i t σ|i σ|i [] σ|o σ|l σ|l σ|st a σ|dt σ|k σ σ' Hf].
  - right. apply toast_count.
  - left. exact (dispatch_count (UPDATE_TOAST {| pid := Some i; pprops := props t |}) σ).
  - left. exact (dispatch_count (DISMISS_TOAST (Some i)) σ).
  - by left.
  - left. exact (dispatch_count (DISMISS_TOAST (Some i)) σ).
  - left. exact (dispatch_count (DISMISS_TOAST o) σ).
  - by left.
  - by left.
  - left. by destruct (reducer_frame st a σ) as (-> & _).
  - by left.
  - left. by eapply fire_count.
Qed.

Lemma reachable_count σ : reachable σ → (count σ < MAX_SAFE_INTEGER)%N.
Proof.
  revert σ. apply reachable_invariant; [done|].
  intros σ σ' _ Hs IH. destruct (step_count σ σ' Hs) as [->| ->]; [done|].
  apply N.mod_upper_bound. done.
Qed.

(** X12: whatever mix of calls, timer firings and passing time led to a
    store, it tracks at most [TOAST_LIMIT] toasts, each bears the decimal of
    the counter's current value as its id, no id is empty, and the counter
    is below [MAX_SAFE_INTEGER]. *)
Theorem store_invariant σ :
  reachable σ →
  length (toasts (memoryState σ)) ≤ TOAST_LIMIT
  ∧ (∀ t, t ∈ toasts (memoryState σ) → id t = pretty (count σ) ∧ id t ≠ "")
  ∧ (count σ < MAX_SAFE_INTEGER)%N.
Proof.
  intros Hr. destruct (reachable_tracks_last_shown σ Hr) as [Hlen Hid].
  unfold ids in Hlen. rewrite length_fmap in Hlen.
  split; [done|]. split; [|by apply reachable_count].
  intros t Ht. pose proof (Hid _ (tracked_id t σ Ht)) as E.
  split; [done|]. rewrite E. apply pretty_N_nonempty.
Qed.

Lemma store_invariant_witness :
  length (toasts (memoryState dismissed_once)) ≤ TOAST_LIMIT
  ∧ (count dismissed_once < MAX_SAFE_INTEGER)%N.
Proof.
  destruct (store_invariant dismissed_once dismissed_once_reachable) as (H1 & _ & H3).
  split; [exact H1|exact H3].
Defined.

(** ** A dismissed toast that is pushed out *)

Lemma toast_timers p σ :
  toastTimeouts (exec (toast p) σ) = toastTimeouts σ
  ∧ pending (exec (toast p) σ) = pending σ.
Proof.
  rewrite toast_exec.
  destruct (dispatch_timers (ADD_TOAST (newToast (eval genId σ) p)) (exec genId σ))
    as (-> & -> & _).
  by rewrite reducer_exec_pure.
Qed.

(** X13: showing a toast does not cancel the timer of the dismissed toast
    it pushes out.  That timer still fires after the delay, and then leaves
    the new toast alone: the list is what it was before the timer fired. *)
Theorem evicted_timer_spares_new_toast σ h p :
  reachable σ → h ∈ ids σ →
  let σ1 := exec (dismiss (Some h)) σ in
  let σ2 := exec (toast p) σ1 in
  (h ∉ ids σ2)
  ∧ ∃ k, toastTimeouts σ2 !! h = Some k
      ∧ ∃ σ3, fire k (advance TOAST_REMOVE_DELAY σ2) = Some σ3
          ∧ toasts (memoryState σ3) = toasts (memoryState σ2)
          ∧ toasts (memoryState σ3) = [newToast (eval (toast p) σ1) p]
          ∧ toastTimeouts σ3 !! h = None.
Proof.
  intros Hr Hin σ1 σ2.
  assert (Hr1 : reachable σ1) by (eapply rtc_r; [exact Hr|apply step_dismiss]).
  assert (Hr2 : reachable σ2) by (eapply rtc_r; [exact Hr1|apply step_toast]).
  assert (Hh : h = pretty (count σ1)).
  { destruct (reachable_tracks_last_shown σ1 Hr1) as [_ Hid]. apply Hid.
    subst σ1. by rewrite dismiss_keeps_ids. }
  assert (Hts : toasts (memoryState σ2) = [newToast (eval (toast p) σ1) p]).
  { subst σ2. by rewrite toast_memoryState, toast_eval. }
  assert (Hne : eval (toast p) σ1 ≠ h).
  { rewrite Hh, toast_eval, genId_eval. apply genId_changes. }
  assert (Hout : h ∉ ids σ2).
  { unfold ids. rewrite Hts. cbn. intros E%list_elem_of_singleton. by destruct Hne. }
  split; [done|].
  destruct (dismiss_targets_armed (Some h) σ h) as [k Hk].
  { apply tracked_is_target; [done|by left]. }
  exists k. destruct (toast_timers p σ1) as [Ett _].
  split; [subst σ2; by rewrite Ett|].
  destruct (fire_after_delay k h σ2) as (σ3 & Hf & _ & Htt & Hts3 & _);
    [by apply reachable_ok|subst σ2; by rewrite Ett|].
  exists σ3. split; [done|].
  assert (E3 : toasts (memoryState σ3) = toasts (memoryState σ2)).
  { rewrite Hts3. by apply filter_id_absent. }
  split; [done|]. split; [by rewrite E3|]. by rewrite Htt, lookup_delete_eq.
Qed.

Lemma evicted_timer_spares_new_toast_witness :
  "1" ∉ ids (exec (toast {["title" := VString "B"]}) (exec (dismiss (Some "1")) shown_once)).
Proof.
  destruct (evicted_timer_spares_new_toast shown_once "1" {["title" := VString "B"]}
              shown_once_reachable shown_once_tracks) as [H _].
  exact H.
Defined.

(** * The components around the store *)

(** ** Ticket counts on the dashboards *)

Lemma count_three_ways {A} (f : A → string) (a b c : string) (l : list A) :
  a ≠ b → a ≠ c → b ≠ c →
  length (filter (λ x, f x = a) l) + length (filter (λ x, f x = b) l)
  + length (filter (λ x, f x = c) l)
  + length (filter (λ x, f x ∉ [a; b; c]) l)
  = length l.
Proof.
  intros Hab Hac Hbc. induction l as [|x l IH]; [done|].
  rewrite !filter_cons.
  destruct (decide (f x = a)) as [Ea|Ea]; destruct (decide (f x = b)) as [Eb|Eb];
    destruct (decide (f x = c)) as [Ec|Ec]; try congruence;
    destruct (decide (f x ∉ [a; b; c])) as [Eo|Eo]; cbn; try lia.
  - destruct Eo. rewrite Ea. by apply elem_of_cons; left.
  - destruct Eo. rewrite Eb. apply elem_of_cons; right. by apply elem_of_cons; left.
  - destruct Eo. rewrite Ec. do 2 (apply elem_of_cons; right). by apply elem_of_cons; left.
  - exfalso. apply Eo. intros Hin.
    repeat (apply elem_of_cons in Hin as [?|Hin]; [congruence|]).
    by apply elem_of_nil in Hin.
Qed.




(** X15: the admin dashboard replaces its numbers only when all three
    queries came back without an error and with rows; otherwise the numbers
    stay exactly as they were, nothing is updated in part, and what was
    thrown is logged: the error of the first query that failed, in the order
    tickets, users, categories. *)
Theorem admin_stats_all_or_nothing rt ru rc stats :
  let out := AdminDashboard.fetchStats rt ru rc stats in
  (out.2 = None ↔
     Supabase.error rt = None ∧ Supabase.error ru = None ∧ Supabase.error rc = None
     ∧ is_Some (Supabase.data rt) ∧ is_Some (Supabase.data ru)
     ∧ is_Some (Supabase.data rc))
  ∧ (out.2 ≠ None → out.1 = stats)
  ∧ (∀ e, Supabase.error rt = Some e → out.2 = Some (Supabase.Rejected e))
  ∧ (∀ e, Supabase.error rt = None → Supabase.error ru = Some e →
       out.2 = Some (Supabase.Rejected e))
  ∧ (∀ e, Supabase.error rt = None → Supabase.error ru = None →
       Supabase.error rc = Some e → out.2 = Some (Supabase.Rejected e)).
Proof.
  destruct rt as [dt [et|]], ru as [du [eu|]], rc as [dc [ec|]];
    destruct dt as [tickets|], du as [us|], dc as [cs|];
    cbn; (split; [split; [intros; try discriminate; try (repeat split; by eauto)
                         |intros (?&?&?&[? ?]&[? ?]&[? ?]); by simplify_eq]|]);
    (split; [intros H; try done; by destruct H|]);
    repeat split; intros; by simplify_eq.
Qed.

Lemma admin_stats_all_or_nothing_witness :
  (AdminDashboard.fetchStats
     {| Supabase.data := None;
        Supabase.error := Some {| Supabase.message := "permission denied" |} |}
     {| Supabase.data := Some []; Supabase.error := None |}
     {| Supabase.data := Some []; Supabase.error := None |}
     AdminDashboard.initialStats).1
  = AdminDashboard.initialStats.
Proof.
  destruct (admin_stats_all_or_nothing
     {| Supabase.data := None;
        Supabase.error := Some {| Supabase.message := "permission denied" |} |}
     {| Supabase.data := Some ([] : list AdminDashboard.IdRow); Supabase.error := None |}
     {| Supabase.data := Some ([] : list AdminDashboard.IdRow); Supabase.error := None |}
     AdminDashboard.initialStats) as (_ & H & _).
  apply H. discriminate.
Defined.

(** X16: the agent dashboard does nothing without a signed-in user; with
    one, and both queries answered, its open, in-progress and resolved counts
    for a list of tickets are the counts the admin dashboard shows for
    tickets of the same statuses, they never exceed the total, and the number
    assigned to the agent is the length of the second answer; an error of
    either query leaves the numbers as they were. *)
Theorem agent_stats (Row : Type) u (allTickets : list AgentDashboard.TicketRow)
    (myTickets : list Row) rAll (rMy : Supabase.Response (list Row)) stats :
  AgentDashboard.fetchStats None rAll rMy stats = (stats, None)
  ∧ (let s' := (AgentDashboard.fetchStats (Some u)
                  {| Supabase.data := Some allTickets; Supabase.error := None |}
                  {| Supabase.data := Some myTickets; Supabase.error := None |} stats).1 in
     let a' := (AdminDashboard.fetchStats
                  {| Supabase.data :=
                       Some ((λ t, {| AdminDashboard.status := AgentDashboard.status t |})
                               <$> allTickets);
                     Supabase.error := None |}
                  {| Supabase.data := Some []; Supabase.error := None |}
                  {| Supabase.data := Some []; Supabase.error := None |}
                  AdminDashboard.initialStats).1 in
     AgentDashboard.total s' = AdminDashboard.total_tickets a'
     ∧ AgentDashboard.open s' = AdminDashboard.open_tickets a'
     ∧ AgentDashboard.in_progress s' = AdminDashboard.in_progress_tickets a'
     ∧ AgentDashboard.resolved s' = AdminDashboard.resolved_tickets a'
     ∧ AgentDashboard.open s' + AgentDashboard.in_progress s' + AgentDashboard.resolved s'
       ≤ AgentDashboard.total s'
     ∧ AgentDashboard.assigned_to_me s' = length myTickets)
  ∧ (is_Some (Supabase.error rAll) ∨ is_Some (Supabase.error rMy) →
     (AgentDashboard.fetchStats (Some u) rAll rMy stats).1 = stats
     ∧ is_Some (AgentDashboard.fetchStats (Some u) rAll rMy stats).2).
Proof.
  split; [done|]. split.
  - cbn.
    assert (Hf : ∀ s, length (filter (λ t, AdminDashboard.status t = s)
                        ((λ t, {| AdminDashboard.status := AgentDashboard.status t |})
                           <$> allTickets))
                      = length (filter (λ t, AgentDashboard.status t = s) allTickets)).
    { intros s. induction allTickets as [|t l IH]; [done|].
      cbn [fmap list_fmap]. rewrite !filter_cons. cbn.
      destruct (decide (AgentDashboard.status t = s)); cbn; by rewrite IH. }
    rewrite !Hf, length_fmap.
    pose proof (count_three_ways AgentDashboard.status "open" "in_progress" "resolved"
                  allTickets ltac:(done) ltac:(done) ltac:(done)) as Hsum.
    repeat split; try done. lia.
  - destruct rAll as [dA [eA|]], rMy as [dM [eM|]]; cbn;
      intros [[e He]|[e He]]; try discriminate; (split; [done|by eexists]).
Qed.

Lemma agent_stats_witness :
  (AgentDashboard.fetchStats (Some {| AgentDashboard.id := "a1" |})
     {| Supabase.data := None;
        Supabase.error := Some {| Supabase.message := "timeout" |} |}
     {| Supabase.data := Some ([] : list AgentDashboard.TicketRow); Supabase.error := None |}
     {| AgentDashboard.total := 3; AgentDashboard.open := 1; AgentDashboard.in_progress := 1;
        AgentDashboard.resolved := 1; AgentDashboard.assigned_to_me := 2 |}).1
  = {| AgentDashboard.total := 3; AgentDashboard.open := 1; AgentDashboard.in_progress := 1;
       AgentDashboard.resolved := 1; AgentDashboard.assigned_to_me := 2 |}.
Proof.
  destruct (agent_stats AgentDashboard.TicketRow {| AgentDashboard.id := "a1" |} [] []
     {| Supabase.data := None;
        Supabase.error := Some {| Supabase.message := "timeout" |} |}
     {| Supabase.data := Some []; Supabase.error := None |}
     {| AgentDashboard.total := 3; AgentDashboard.open := 1; AgentDashboard.in_progress := 1;
        AgentDashboard.resolved := 1; AgentDashboard.assigned_to_me := 2 |})
    as (_ & _ & H).
  destruct H as [H _]; [left; by eexists|exact H].
Defined.

(** ** Names and avatar letters *)

Lemma charAt0_truthy (o : option JsString) :
  js_truthy (charAt0 <$> o) = js_truthy o.
Proof. by destruct o as [[|c s]|]. Qed.

Lemma js_or_else_charAt0 (a b : option JsString) (l : JsString) :
  js_or_else (js_or (charAt0 <$> a) (charAt0 <$> b)) (charAt0 l)
  = charAt0 (js_or_else (js_or a b) l).
Proof.
  unfold js_or_else, js_or. rewrite !charAt0_truthy.
  destruct (js_truthy a) eqn:Ea.
  - rewrite charAt0_truthy, Ea. by destruct a.
  - rewrite charAt0_truthy. destruct (js_truthy b) eqn:Eb; [by destruct b|done].
Qed.

(** X17: in the user table the name shown is never empty: it is the full
    name if there is a non-empty one, else the user name if that is
    non-empty, else [Unnamed User]; the avatar's fallback is always exactly
    the first UTF-16 code unit of the name shown, one code unit long; and the
    [@username] line appears only under a full name. *)
Theorem user_row_name u :
  UserManager.displayName u ≠ []
  ∧ UserManager.avatarFallback u = charAt0 (UserManager.displayName u)
  ∧ length (UserManager.avatarFallback u) = 1
  ∧ (js_truthy (UserManager.full_name u) = true →
     Some (UserManager.displayName u) = UserManager.full_name u)
  ∧ (js_truthy (UserManager.full_name u) = false →
     js_truthy (UserManager.username u) = true →
     Some (UserManager.displayName u) = UserManager.username u)
  ∧ (js_truthy (UserManager.full_name u) = false →
     js_truthy (UserManager.username u) = false →
     UserManager.displayName u = js_lit "Unnamed User")
  ∧ (UserManager.showsUsernameLine u = true →
     Some (UserManager.displayName u) = UserManager.full_name u).
Proof.
  assert (Hav : UserManager.avatarFallback u = charAt0 (UserManager.displayName u)).
  { unfold UserManager.avatarFallback, UserManager.displayName.
    by rewrite <- js_or_else_charAt0. }
  assert (Hne : UserManager.displayName u ≠ []).
  { unfold UserManager.displayName, js_or_else, js_or.
    destruct (UserManager.full_name u) as [[|c s]|], (UserManager.username u) as [[|c' s']|];
      done. }
  split; [done|]. split; [done|]. split.
  { rewrite Hav. by destruct (UserManager.displayName u). }
  unfold UserManager.showsUsernameLine, UserManager.displayName, js_or_else, js_or.
  destruct (UserManager.full_name u) as [[|c s]|], (UserManager.username u) as [[|c' s']|];
    cbn; repeat split; intros; done.
Qed.

Lemma user_row_name_witness :
  Some (UserManager.displayName
    {| UserManager.id := "u1"; UserManager.username := Some (js_lit "ann");
       UserManager.full_name := Some []; UserManager.email := None;
       UserManager.role := UserManager.agent; UserManager.avatar_url := None;
       UserManager.created_at := "2025-08-02" |})
  = Some (js_lit "ann").
Proof.
  destruct (user_row_name
    {| UserManager.id := "u1"; UserManager.username := Some (js_lit "ann");
       UserManager.full_name := Some []; UserManager.email := None;
       UserManager.role := UserManager.agent; UserManager.avatar_url := None;
       UserManager.created_at := "2025-08-02" |}) as (_ & _ & _ & _ & H & _).
  exact (H eq_refl eq_refl).
Defined.

(** A full name that starts outside ASCII: the letter shown is its first
    code unit, here U+00C9. *)
Example avatar_of_accented_name :
  UserManager.avatarFallback
    {| UserManager.id := "u2"; UserManager.username := None;
       UserManager.full_name := Some ([201] ++ js_lit "mile")%N; UserManager.email := None;
       UserManager.role := UserManager.user; UserManager.avatar_url := None;
       UserManager.created_at := "2025-08-02" |}
  = [201%N].
Proof. reflexivity. Qed.

(** X18: the header's avatar fallback is one UTF-16 code unit long whether
    or not a profile is loaded: the first code unit of the name in the menu
    when there is a non-empty one, [U] otherwise; and for the same names it
    is the one the user table shows. *)
Theorem layout_avatar (profile : option Layout.Profile) :
  length (Layout.avatarFallback profile) = 1
  ∧ Layout.avatarFallback None = js_lit "U"
  ∧ (js_truthy (Layout.menuName profile) = true →
     Some (Layout.avatarFallback profile) = charAt0 <$> Layout.menuName profile)
  ∧ (js_truthy (Layout.menuName profile) = false →
     Layout.avatarFallback profile = js_lit "U")
  ∧ (∀ u p, profile = Some p →
       UserManager.full_name u = Layout.full_name p →
       UserManager.username u = Layout.username p →
       Layout.avatarFallback profile = UserManager.avatarFallback u).
Proof.
  split; [|split; [done|split; [|split]]].
  - unfold Layout.avatarFallback, js_or_else, js_or.
    destruct profile as [[[[|c s]|] [[|c' s']|] a]|]; done.
  - unfold Layout.avatarFallback, Layout.menuName, js_or_else, js_or.
    destruct profile as [[[[|c s]|] [[|c' s']|] a]|]; done.
  - unfold Layout.avatarFallback, Layout.menuName, js_or_else, js_or.
    destruct profile as [[[[|c s]|] [[|c' s']|] a]|]; done.
  - intros u p -> Hf Hu. unfold Layout.avatarFallback, UserManager.avatarFallback.
    cbn. by rewrite Hf, Hu.
Qed.

Lemma layout_avatar_witness :
  Some (Layout.avatarFallback (Some {| Layout.username := Some (js_lit "ann");
                                       Layout.full_name := None;
                                       Layout.avatar_url := None |}))
  = Some (js_lit "a").
Proof.
  destruct (layout_avatar (Some {| Layout.username := Some (js_lit "ann");
                                   Layout.full_name := None;
                                   Layout.avatar_url := None |})) as (_ & _ & H & _).
  exact (H eq_refl).
Defined.

(** ** Handlers that report through the store *)

(** Reading a field of a toast that [toast] has built from a literal
    payload. *)
Ltac lookup_props :=
  unfold newToast; cbn [props];
  repeat (rewrite lookup_insert_ne by done);
  rewrite ?lookup_insert_eq, ?lookup_empty; done.

Lemma toast_replaces p σ :
  toasts (memoryState (exec (toast p) σ)) = [newToast (eval genId σ) p].
Proof. by rewrite toast_memoryState. Qed.

Lemma toast_notified p σ :
  notified (exec (toast p) σ)
  = notified σ ++ ((λ l, (l, memoryState (exec (toast p) σ))) <$> listeners σ).
Proof.
  rewrite toast_exec.
  rewrite (dispatch_notified (ADD_TOAST (newToast (eval genId σ) p)) (exec genId σ)).
  done.
Qed.

(** X19: changing a user's role sends one update for that user and role.
    If it is accepted, a toast titled [Role Updated] naming the new role
    replaces whatever toast was tracked, the list is fetched again (its rows
    replace the shown ones unless that query fails) and the parent is called
    once.  If it is refused, the toast is titled [Error], is marked
    destructive and carries the error's message, or a fixed text when the
    message is empty; the list is not fetched, the rows stay and the parent
    is not called.  Either way the listeners are called once and the loading
    flag ends up false. *)
Theorem role_change_outcome userId newRole updated r
    (w : Supabase.World UserManager.State UserManager.Request) :
  let w' := UserManager.handleRoleChange userId newRole updated r w in
  UserManager.loading (Supabase.comp w') = false
  ∧ notified (Supabase.store w')
    = notified (Supabase.store w)
      ++ ((λ l, (l, memoryState (Supabase.store w'))) <$> listeners (Supabase.store w))
  ∧ ∃ t, toasts (memoryState (Supabase.store w')) = [t]
      ∧ id t = eval genId (Supabase.store w)
      ∧ props t !! "open" = Some (VBool true)
      ∧ match updated with
        | None =>
            props t !! "title" = Some (VString "Role Updated")
            ∧ props t !! "description"
              = Some (VString ("User role has been changed to "
                               +:+ UserManager.role_string newRole +:+ "."))
            ∧ props t !! "variant" = None
            ∧ Supabase.requests w'
              = Supabase.requests w
                ++ [UserManager.UpdateRole userId newRole; UserManager.SelectProfiles]
            ∧ Supabase.parentCalls w' = S (Supabase.parentCalls w)
            ∧ UserManager.users (Supabase.comp w')
              = match Supabase.error r with
                | None => default [] (Supabase.data r)
                | Some _ => UserManager.users (Supabase.comp w)
                end
        | Some e =>
            props t !! "title" = Some (VString "Error")
            ∧ props t !! "description"
              = Some (VString (if decide (Supabase.message e = "")
                               then "Failed to update user role"
                               else Supabase.message e))
            ∧ props t !! "variant" = Some (VString "destructive")
            ∧ Supabase.requests w'
              = Supabase.requests w ++ [UserManager.UpdateRole userId newRole]
            ∧ Supabase.parentCalls w' = Supabase.parentCalls w
            ∧ UserManager.users (Supabase.comp w') = UserManager.users (Supabase.comp w)
            ∧ Supabase.console w' = Supabase.console w
        end.
Proof.
  intros w'. subst w'. destruct updated as [e|].
  - split; [done|].
    change (Supabase.store (UserManager.handleRoleChange userId newRole (Some e) r w))
      with (exec (toast (<["title" := VString "Error"]>
             (<["description" :=
                  VString (js_or_lit (Some (Supabase.message e))
                             "Failed to update user role")]>
                (<["variant" := VString "destructive"]> ∅)))) (Supabase.store w)).
    split; [apply toast_notified|].
    eexists. split; [apply toast_replaces|]. split; [done|].
    split; [lookup_props|].
    split; [lookup_props|].
    split.
    { unfold js_or_lit. destruct (Supabase.message e) as [|c s]; lookup_props. }
    split; [lookup_props|].
    done.
  - split; [done|].
    assert (Es : Supabase.store (UserManager.handleRoleChange userId newRole None r w)
      = exec (toast (<["title" := VString "Role Updated"]>
             (<["description" :=
                  VString ("User role has been changed to "
                           +:+ UserManager.role_string newRole +:+ ".")]> ∅)))
              (Supabase.store w)).
    { unfold UserManager.handleRoleChange, UserManager.fetchUsers.
      by destruct (Supabase.error r). }
    rewrite Es.
    split; [apply toast_notified|].
    eexists. split; [apply toast_replaces|]. split; [done|].
    split; [lookup_props|].
    split; [lookup_props|].
    split; [lookup_props|].
    split; [lookup_props|].
    split.
    { unfold UserManager.handleRoleChange, UserManager.fetchUsers.
      destruct (Supabase.error r); cbn -[toast]; by rewrite <- app_assoc. }
    unfold UserManager.handleRoleChange, UserManager.fetchUsers.
    split; destruct (Supabase.error r); reflexivity.
Qed.

Lemma error_toast_fields e fallback i :
  props (newToast i (CategoryManager.errorToast e fallback)) !! "title"
  = Some (VString "Error")
  ∧ props (newToast i (CategoryManager.errorToast e fallback)) !! "description"
    = Some (VString (if decide (Supabase.message e = "") then fallback
                     else Supabase.message e))
  ∧ props (newToast i (CategoryManager.errorToast e fallback)) !! "variant"
    = Some (VString "destructive")
  ∧ props (newToast i (CategoryManager.errorToast e fallback)) !! "open"
    = Some (VBool true).
Proof.
  unfold CategoryManager.errorToast, js_or_lit.
  destruct (Supabase.message e) as [|c s]; repeat split; lookup_props.
Qed.

Lemma success_toast_fields title description i :
  props (newToast i (CategoryManager.successToast title description)) !! "title"
  = Some (VString title)
  ∧ props (newToast i (CategoryManager.successToast title description)) !! "description"
    = Some (VString description)
  ∧ props (newToast i (CategoryManager.successToast title description)) !! "variant" = None
  ∧ props (newToast i (CategoryManager.successToast title description)) !! "open"
    = Some (VBool true).
Proof. unfold CategoryManager.successToast. repeat split; lookup_props. Qed.

(** X20: submitting the category form sends an update addressed to the
    category being edited, or an insert when none is, with the form's values
    in either case.  When the write is accepted the dialog closes, the edited
    category is forgotten, the form goes back to its defaults, the list is
    fetched again, the parent is called once and a toast titled
    [Category Updated] or [Category Created] is shown.  When it is refused
    the dialog, the edited category, the form's values and the rows stay as
    they were, nothing is fetched, the parent is not called and the toast is
    an error toast.  The loading flag ends up false. *)
Theorem category_submit_outcome saved r
    (w : Supabase.World CategoryManager.State CategoryManager.Request) :
  let w' := CategoryManager.handleSubmit saved r w in
  let editing := CategoryManager.editingCategory (Supabase.comp w) in
  let values := CategoryManager.formData (Supabase.comp w) in
  let write := match editing with
               | Some c => CategoryManager.UpdateCategory (CategoryManager.id c) values
               | None => CategoryManager.InsertCategory values
               end in
  CategoryManager.loading (Supabase.comp w') = false
  ∧ ∃ t, toasts (memoryState (Supabase.store w')) = [t]
      ∧ id t = eval genId (Supabase.store w)
      ∧ props t !! "open" = Some (VBool true)
      ∧ match saved with
        | None =>
            props t !! "title"
            = Some (VString (if editing is Some _ then "Category Updated"
                             else "Category Created"))
            ∧ Supabase.requests w'
              = Supabase.requests w ++ [write; CategoryManager.SelectCategories]
            ∧ CategoryManager.showDialog (Supabase.comp w') = false
            ∧ CategoryManager.editingCategory (Supabase.comp w') = None
            ∧ CategoryManager.formData (Supabase.comp w') = CategoryManager.emptyForm
            ∧ Supabase.parentCalls w' = S (Supabase.parentCalls w)
            ∧ CategoryManager.categories (Supabase.comp w')
              = match Supabase.error r with
                | None => default [] (Supabase.data r)
                | Some _ => CategoryManager.categories (Supabase.comp w)
                end
        | Some e =>
            props t !! "title" = Some (VString "Error")
            ∧ props t !! "description"
              = Some (VString (if decide (Supabase.message e = "")
                               then "Failed to save category" else Supabase.message e))
            ∧ props t !! "variant" = Some (VString "destructive")
            ∧ Supabase.requests w' = Supabase.requests w ++ [write]
            ∧ CategoryManager.showDialog (Supabase.comp w')
              = CategoryManager.showDialog (Supabase.comp w)
            ∧ CategoryManager.editingCategory (Supabase.comp w') = editing
            ∧ CategoryManager.formData (Supabase.comp w') = values
            ∧ CategoryManager.categories (Supabase.comp w')
              = CategoryManager.categories (Supabase.comp w)
            ∧ Supabase.parentCalls w' = Supabase.parentCalls w
        end.
Proof.
  intros w' editing values write. subst w' editing values write.
  unfold CategoryManager.handleSubmit, CategoryManager.fetchCategories.
  destruct saved as [e|].
  - split; [done|].
    destruct (error_toast_fields e "Failed to save category" (eval genId (Supabase.store w)))
      as (Ht & Hd & Hv & Ho).
    destruct (CategoryManager.editingCategory (Supabase.comp w)) as [c|] eqn:Eed;
      (eexists; split; [apply toast_replaces|]; repeat split; first [done|reflexivity|exact Eed]).
  - split; [by destruct (Supabase.error r)|].
    destruct (CategoryManager.editingCategory (Supabase.comp w)) as [c|] eqn:Eed.
    + destruct (success_toast_fields "Category Updated"
                  "The category has been updated successfully."
                  (eval genId (Supabase.store w))) as (Ht & _ & _ & Ho).
      destruct (Supabase.error r);
        (eexists; split; [apply toast_replaces|]; repeat split;
         first [done|reflexivity|exact Eed|cbn -[toast]; by rewrite <- app_assoc]).
    + destruct (success_toast_fields "Category Created"
                  "The new category has been created successfully."
                  (eval genId (Supabase.store w))) as (Ht & _ & _ & Ho).
      destruct (Supabase.error r);
        (eexists; split; [apply toast_replaces|]; repeat split;
         first [done|reflexivity|exact Eed|cbn -[toast]; by rewrite <- app_assoc]).
Qed.

(** X21: opening a category for editing fills the form with that
    category's name, description and colour and touches neither the store nor
    the remote data; a submit that follows at once writes exactly those
    values back to that category's id.  Opening the dialog for a new category
    clears the form, and a submit that follows inserts the defaults. *)
Theorem category_edit_round_trip c saved r
    (w : Supabase.World CategoryManager.State CategoryManager.Request) :
  let we := CategoryManager.handleEdit c w in
  let wc := CategoryManager.openCreateDialog w in
  CategoryManager.showDialog (Supabase.comp we) = true
  ∧ CategoryManager.editingCategory (Supabase.comp we) = Some c
  ∧ CategoryManager.formData (Supabase.comp we)
    = {| CategoryManager.form_name := CategoryManager.name c;
         CategoryManager.form_description := CategoryManager.description c;
         CategoryManager.form_color := CategoryManager.color c |}
  ∧ Supabase.store we = Supabase.store w
  ∧ Supabase.requests we = Supabase.requests w
  ∧ CategoryManager.showDialog (Supabase.comp wc) = true
  ∧ CategoryManager.editingCategory (Supabase.comp wc) = None
  ∧ CategoryManager.formData (Supabase.comp wc) = CategoryManager.emptyForm
  ∧ (∃ rest, Supabase.requests (CategoryManager.handleSubmit saved r we)
       = Supabase.requests w
         ++ CategoryManager.UpdateCategory (CategoryManager.id c)
              {| CategoryManager.form_name := CategoryManager.name c;
                 CategoryManager.form_description := CategoryManager.description c;
                 CategoryManager.form_color := CategoryManager.color c |} :: rest)
  ∧ (∃ rest, Supabase.requests (CategoryManager.handleSubmit saved r wc)
       = Supabase.requests w
         ++ CategoryManager.InsertCategory CategoryManager.emptyForm :: rest).
Proof.
  intros we wc. subst we wc. repeat (split; [reflexivity|]).
  unfold CategoryManager.handleSubmit, CategoryManager.fetchCategories.
  split.
  - destruct saved as [e|]; [by exists []|].
    exists [CategoryManager.SelectCategories].
    destruct (Supabase.error r); cbn -[toast]; by rewrite <- app_assoc.
  - destruct saved as [e|]; [by exists []|].
    exists [CategoryManager.SelectCategories].
    destruct (Supabase.error r); cbn -[toast]; by rewrite <- app_assoc.
Qed.

(** X22: deleting a category does nothing at all when the user declines
    the confirmation: no request, no toast, no change of state.  When
    confirmed it sends one delete for that id; if accepted, a toast titled
    [Category Deleted] is shown, the list is fetched again and the parent is
    called once; if refused, an error toast is shown and nothing is fetched.
    The dialog and the form are not touched, and the loading flag ends up
    false. *)
Theorem category_delete_outcome categoryId deleted r
    (w : Supabase.World CategoryManager.State CategoryManager.Request) :
  CategoryManager.handleDelete categoryId false deleted r w = w
  ∧ (let w' := CategoryManager.handleDelete categoryId true deleted r w in
     CategoryManager.loading (Supabase.comp w') = false
     ∧ CategoryManager.showDialog (Supabase.comp w')
       = CategoryManager.showDialog (Supabase.comp w)
     ∧ CategoryManager.formData (Supabase.comp w')
       = CategoryManager.formData (Supabase.comp w)
     ∧ CategoryManager.editingCategory (Supabase.comp w')
       = CategoryManager.editingCategory (Supabase.comp w)
     ∧ ∃ t, toasts (memoryState (Supabase.store w')) = [t]
         ∧ id t = eval genId (Supabase.store w)
         ∧ props t !! "open" = Some (VBool true)
         ∧ match deleted with
           | None =>
               props t !! "title" = Some (VString "Category Deleted")
               ∧ Supabase.requests w'
                 = Supabase.requests w
                   ++ [CategoryManager.DeleteCategory categoryId;
                       CategoryManager.SelectCategories]
               ∧ Supabase.parentCalls w' = S (Supabase.parentCalls w)
           | Some e =>
               props t !! "title" = Some (VString "Error")
               ∧ props t !! "description"
                 = Some (VString (if decide (Supabase.message e = "")
                                  then "Failed to delete category"
                                  else Supabase.message e))
               ∧ Supabase.requests w'
                 = Supabase.requests w ++ [CategoryManager.DeleteCategory categoryId]
               ∧ Supabase.parentCalls w' = Supabase.parentCalls w
               ∧ CategoryManager.categories (Supabase.comp w')
                 = CategoryManager.categories (Supabase.comp w)
           end).
Proof.
  split; [done|]. cbv zeta.
  unfold CategoryManager.handleDelete, CategoryManager.fetchCategories.
  destruct deleted as [e|].
  - repeat (split; [reflexivity|]).
    destruct (error_toast_fields e "Failed to delete category"
                (eval genId (Supabase.store w))) as (Ht & Hd & Hv & Ho).
    eexists; split; [apply toast_replaces|]; repeat split; first [done|reflexivity].
  - split; [by destruct (Supabase.error r)|]. split; [by destruct (Supabase.error r)|].
    split; [by destruct (Supabase.error r)|]. split; [by destruct (Supabase.error r)|].
    destruct (success_toast_fields "Category Deleted"
                "The category has been deleted successfully."
                (eval genId (Supabase.store w))) as (Ht & _ & _ & Ho).
    destruct (Supabase.error r);
      (eexists; split; [apply toast_replaces|]; repeat split;
       first [done|reflexivity|cbn -[toast]; by rewrite <- app_assoc]).
Qed.

(** ** A whole life of a toast *)

(** X23: show a toast in any reachable store, dismiss it through its
    handle, let the delay pass and let the host run its due timers: the list
    is empty, the timer map is empty and no timer is pending, so nothing of
    the toast, or of any toast dismissed before it, is left behind. *)
Theorem toast_lifecycle_leaves_nothing σ p :
  reachable σ →
  let i := eval (toast p) σ in
  let σ1 := exec (toast p) σ in
  let σ2 := exec (handle_dismiss i) σ1 in
  let σ3 := run_due (advance TOAST_REMOVE_DELAY σ2) in
  toasts (memoryState σ1) = [newToast i p]
  ∧ (close <$> toasts (memoryState σ1)) = toasts (memoryState σ2)
  ∧ toasts (memoryState σ3) = []
  ∧ toastTimeouts σ3 = ∅
  ∧ pending σ3 = [].
Proof.
  intros Hr i σ1 σ2 σ3.
  assert (Hr1 : reachable σ1) by (eapply rtc_r; [exact Hr|apply step_toast]).
  assert (Hr2 : reachable σ2) by (eapply rtc_r; [exact Hr1|apply step_handle_dismiss]).
  assert (Hts : toasts (memoryState σ1) = [newToast i p]).
  { subst σ1 i. by rewrite toast_replaces, toast_eval. }
  assert (Hts2 : toasts (memoryState σ2) = close <$> toasts (memoryState σ1)).
  { subst σ2. unfold handle_dismiss. rewrite dispatch_memoryState, reducer_dismiss_eval.
    cbn [toasts]. rewrite Hts. cbn. by rewrite decide_True by by left. }
  split; [done|]. split; [done|].
  pose proof (reachable_ok σ2 Hr2) as Hok2.
  destruct (run_due_drains_from (pending (advance TOAST_REMOVE_DELAY σ2))
              (advance TOAST_REMOVE_DELAY σ2)) as (Hp & Hok3 & Hsub & Hgone);
    [by apply advance_ok|done| |].
  { intros t Ht. apply (ok_due _ Hok2) in Ht. cbn. lia. }
  fold (run_due (advance TOAST_REMOVE_DELAY σ2)) in *. fold σ3 in Hp, Hok3, Hsub, Hgone.
  assert (Hi : is_Some (toastTimeouts σ2 !! i)).
  { subst σ2. apply (dismiss_targets_armed (Some i) σ1 i).
    subst i. destruct (toast_id_truthy σ p) as [_ Hd]. rewrite Hd.
    by apply list_elem_of_singleton. }
  assert (Hids3 : ids σ3 = []).
  { destruct Hi as [k Hk]. destruct (ok_entry _ Hok2 _ _ Hk) as [d Hd].
    specialize (Hgone _ Hd). change (i ∉ ids σ3) in Hgone.
    assert (Hids2 : ids (advance TOAST_REMOVE_DELAY σ2) = [i]).
    { unfold ids. cbn [advance memoryState set_clock]. by rewrite Hts2, Hts. }
    rewrite Hids2 in Hsub. destruct (ids σ3) as [|j l] eqn:E3; [done|].
    exfalso. apply Hgone.
    assert (j = i) as ->.
    { apply (elem_of_sublist _ _ j) in Hsub; [|by apply elem_of_cons; left].
      by apply list_elem_of_singleton in Hsub. }
    by apply elem_of_cons; left. }
  split; [|split; [|done]].
  - unfold ids in Hids3. by apply fmap_nil_inv in Hids3.
  - apply map_empty. intros j. destruct (toastTimeouts σ3 !! j) as [k|] eqn:E; [|done].
    destruct (ok_entry _ Hok3 _ _ E) as [d Hd]. rewrite Hp in Hd. by apply elem_of_nil in Hd.
Qed.

Lemma toast_lifecycle_leaves_nothing_witness :
  toasts (memoryState (run_due (advance TOAST_REMOVE_DELAY
            (exec (handle_dismiss (eval (toast {["title" := VString "B"]}) shown_once))
               (exec (toast {["title" := VString "B"]}) shown_once))))) = [].
Proof.
  destruct (toast_lifecycle_leaves_nothing shown_once {["title" := VString "B"]}
              shown_once_reachable) as (_ & _ & H & _).
  exact H.
Defined.
